(** * Bounded buffer with condition variables: [prod_cons_cond_t.c]

    A shallow embedding of [threads/producer-consumer/prod_cons_cond_t.c]:
    the shared ring buffer, the producer and consumer loops as a transition
    system over program points, the POSIX mutex and the two condition
    variables, and the sequential skeleton of [main] with its argument
    checks.  *)

From Stdlib Require Import ZArith Lia Ascii String.
From stdpp Require Import base option list strings.

Local Open Scope Z_scope.

(** ** Compile-time constants

    The four [#define]s of the source.  They are kept in a record so that
    the properties of the monitor can be stated for the values of the source
    and for other values of the same macros. *)

Record config := Config {
  BUFFER_SIZE : Z;
  NEUTRAL_VALUE : Z;
  items_to_produce : Z;
  items_to_consume : Z
}.

(** The values in the source file. *)
Definition source_config : config :=
  {| BUFFER_SIZE := 10; NEUTRAL_VALUE := 0;
     items_to_produce := 100; items_to_consume := 100 |}.

(** A small ring: capacity 3, five items. *)
Definition small_config : config :=
  {| BUFFER_SIZE := 3; NEUTRAL_VALUE := 0;
     items_to_produce := 5; items_to_consume := 5 |}.

(** glibc's [RAND_MAX]; [rand()] returns a value in [0, RAND_MAX]. *)
Definition RAND_MAX : Z := 2147483647.

(** ** Shared data

    The [int] fields of [shared_data].  All values stay between 0 and the
    targets, so [int] arithmetic never wraps and the fields are integers.
    The mutex and the two condition variables are part of [sys] below. *)

Record shared_data := Shared {
  buffer : list Z;
  in_ : Z;
  out : Z;
  produced_items : Z;
  consumed_items : Z;
  current_items_num : Z
}.

(** [init_shared], lines 51-58. *)
Definition init_shared (cfg : config) : shared_data :=
  {| buffer := replicate (Z.to_nat (BUFFER_SIZE cfg)) (NEUTRAL_VALUE cfg);
     in_ := 0; out := 0;
     produced_items := 0; consumed_items := 0;
     current_items_num := 0 |}.

(** What the workers print on standard output. *)
Inductive event :=
  | Print_P (i idx d : Z)       (* "P%d: buffer[%d] = %d" *)
  | Print_C (i idx d : Z)       (* "C%d: buffer[%d] = %d" *)
  | Print_buffer (b : list Z).  (* printBuffer *)

(** An index into [buffer] that is inside the array. *)
Definition in_bounds (cfg : config) (i : Z) : bool :=
  (0 <=? i) && (i <? BUFFER_SIZE cfg).

(** The guarded block of the producer, lines 105-115, run by worker [i]
    with the value [d] it drew.  An index outside the array is undefined
    behaviour: no result. *)
Definition produce (cfg : config) (i d : Z) (s : shared_data)
  : option (list event * shared_data) :=
  if produced_items s <? items_to_produce cfg then
    if in_bounds cfg (in_ s) then
      let b := <[Z.to_nat (in_ s) := d]> (buffer s) in
      Some ([Print_P i (in_ s) d; Print_buffer b],
            {| buffer := b;
               in_ := Z.rem (in_ s + 1) (BUFFER_SIZE cfg);
               out := out s;
               produced_items := produced_items s + 1;
               consumed_items := consumed_items s;
               current_items_num := current_items_num s + 1 |})
    else None
  else Some ([], s).

(** The guarded block of the consumer, lines 139-150, run by worker [i]
    whose local [data] holds [d0]: the new value of [data] and the new
    shared data. *)
Definition consume (cfg : config) (i d0 : Z) (s : shared_data)
  : option (list event * Z * shared_data) :=
  if consumed_items s <? items_to_consume cfg then
    if in_bounds cfg (out s) then
      match buffer s !! Z.to_nat (out s) with
      | Some d =>
          let b := <[Z.to_nat (out s) := NEUTRAL_VALUE cfg]> (buffer s) in
          Some ([Print_C i (out s) d; Print_buffer b], d,
                {| buffer := b;
                   in_ := in_ s;
                   out := Z.rem (out s + 1) (BUFFER_SIZE cfg);
                   produced_items := produced_items s;
                   consumed_items := consumed_items s + 1;
                   current_items_num := current_items_num s - 1 |})
      | None => None
      end
    else None
  else Some ([], d0, s).

(** ** Workers

    A worker is at one of the program points of its function.  [Waiting]
    and [Woken] are the two halves of [pthread_cond_wait]: blocked with the
    mutex released, and unblocked but not yet holding the mutex again. *)

Inductive role := Producer | Consumer.

Inductive pc :=
  | While     (* outer loop test, line 94 / 130, read without the lock *)
  | Rand      (* data = rand() % 99 + 1, line 95 *)
  | Lock      (* pthread_mutex_lock, line 97 / 131 *)
  | Test      (* inner loop test, line 100 / 134 *)
  | Waiting   (* blocked in pthread_cond_wait, line 101 / 135 *)
  | Woken     (* pthread_cond_wait taking the mutex back *)
  | Body      (* the guarded block, lines 105-115 / 139-150 *)
  | Signal    (* pthread_cond_signal, line 117 / 152 *)
  | Unlock    (* pthread_mutex_unlock, line 120 / 155 *)
  | Done.     (* the function has returned *)

Record thread := Thread {
  kind : role;
  thread_i : Z;
  at_ : pc;
  data : Z
}.

Definition goto (p : pc) (th : thread) : thread :=
  {| kind := kind th; thread_i := thread_i th; at_ := p; data := data th |}.

Definition set_data (d : Z) (th : thread) : thread :=
  {| kind := kind th; thread_i := thread_i th; at_ := at_ th; data := d |}.

Definition role_eqb (a b : role) : bool :=
  match a, b with
  | Producer, Producer | Consumer, Consumer => true
  | _, _ => false
  end.

Definition pc_eqb (a b : pc) : bool :=
  match a, b with
  | While, While | Rand, Rand | Lock, Lock | Test, Test
  | Waiting, Waiting | Woken, Woken | Body, Body | Signal, Signal
  | Unlock, Unlock | Done, Done => true
  | _, _ => false
  end.

(** The whole system: the shared integers, the owner of the mutex, and the
    workers ([prod_data] followed by [cons_data]).  The waiters of the
    condition variable [full] are the producers at [Waiting], those of
    [empty] the consumers at [Waiting]. *)
Record sys := Sys {
  shared : shared_data;
  mutex : option nat;
  threads : list thread
}.

Definition new_thread (k : role) (i : nat) : thread :=
  {| kind := k; thread_i := Z.of_nat (S i); at_ := While; data := 0 |}.

(** The state when [main] has created its workers: [init_shared], then
    [thread_i = i + 1] for each of the two arrays. *)
Definition init (cfg : config) (producers_num consumers_num : nat) : sys :=
  {| shared := init_shared cfg;
     mutex := None;
     threads := (new_thread Producer <$> seq 0 producers_num)
                  ++ (new_thread Consumer <$> seq 0 consumers_num) |}.

(** [th] is blocked on the condition variable on which workers of role [k]
    wait. *)
Definition waits (k : role) (th : thread) : bool :=
  role_eqb (kind th) k && pc_eqb (at_ th) Waiting.

(** [pthread_cond_signal] on the condition variable of the waiters of role
    [k]: without waiters nothing happens, otherwise the waiter [w] chosen by
    the run-time is unblocked.  (A signal that unblocks several waiters is
    this step followed by [Spurious] steps, see [action].) *)
Definition cond_signal (k : role) (w : nat) (ths : list thread)
  : option (list thread) :=
  match ths !! w with
  | Some th =>
      if waits k th then Some (<[w := goto Woken th]> ths)
      else if existsb (waits k) ths then None else Some ths
  | None => if existsb (waits k) ths then None else Some ths
  end.

(** One statement of worker number [t].  [r] is what [rand()] returns if it
    is called, [w] the waiter that a signal unblocks.  [None]: the worker
    cannot move (blocked, returned, or no such worker).

    The pthread calls of the workers are taken to succeed (on an error the
    source prints a message and goes on).  The guarded block is one step:
    it is a straight line of statements run by the owner of the mutex, and
    the only access to the shared data outside the mutex is the outer loop
    test, which reads one counter that the block writes once. *)
Definition step_thread (cfg : config) (t : nat) (r : Z) (w : nat) (s : sys)
  : option (list event * sys) :=
  match threads s !! t with
  | None => None
  | Some th =>
      let move th' := <[t := th']> (threads s) in
      match at_ th, kind th with
      | While, Producer =>
          if produced_items (shared s) <? items_to_produce cfg
          then Some ([], Sys (shared s) (mutex s) (move (goto Rand th)))
          else Some ([], Sys (shared s) (mutex s) (move (goto Done th)))
      | While, Consumer =>
          if consumed_items (shared s) <? items_to_consume cfg
          then Some ([], Sys (shared s) (mutex s) (move (goto Lock th)))
          else Some ([], Sys (shared s) (mutex s) (move (goto Done th)))
      | Rand, Producer =>
          if (0 <=? r) && (r <=? RAND_MAX)
          then Some ([], Sys (shared s) (mutex s)
                           (move (goto Lock (set_data (Z.rem r 99 + 1) th))))
          else None
      | Rand, Consumer => None
      | Lock, _ | Woken, _ =>
          match mutex s with
          | None => Some ([], Sys (shared s) (Some t) (move (goto Test th)))
          | Some _ => None
          end
      | Test, Producer =>
          if current_items_num (shared s) =? BUFFER_SIZE cfg
          then Some ([], Sys (shared s) None (move (goto Waiting th)))
          else Some ([], Sys (shared s) (mutex s) (move (goto Body th)))
      | Test, Consumer =>
          if (current_items_num (shared s) =? 0)
             && negb (consumed_items (shared s) =? items_to_consume cfg)
          then Some ([], Sys (shared s) None (move (goto Waiting th)))
          else Some ([], Sys (shared s) (mutex s) (move (goto Body th)))
      | Waiting, _ => None
      | Body, Producer =>
          match produce cfg (thread_i th) (data th) (shared s) with
          | Some (evs, sh) => Some (evs, Sys sh (mutex s) (move (goto Signal th)))
          | None => None
          end
      | Body, Consumer =>
          match consume cfg (thread_i th) (data th) (shared s) with
          | Some (evs, d, sh) =>
              Some (evs, Sys sh (mutex s) (move (goto Signal (set_data d th))))
          | None => None
          end
      | Signal, Producer =>
          match cond_signal Consumer w (move (goto Unlock th)) with
          | Some ths => Some ([], Sys (shared s) (mutex s) ths)
          | None => None
          end
      | Signal, Consumer =>
          match cond_signal Producer w (move (goto Unlock th)) with
          | Some ths => Some ([], Sys (shared s) (mutex s) ths)
          | None => None
          end
      | Unlock, _ => Some ([], Sys (shared s) None (move (goto While th)))
      | Done, _ => None
      end
  end.

(** What the scheduler and the run-time can do: let a worker run one
    statement, or wake a blocked worker without a signal (POSIX allows
    spurious wake-ups of [pthread_cond_wait]). *)
Inductive action :=
  | Run (t : nat) (r : Z) (w : nat)
  | Spurious (t : nat).

Definition step (cfg : config) (a : action) (s : sys)
  : option (list event * sys) :=
  match a with
  | Run t r w => step_thread cfg t r w s
  | Spurious t =>
      match threads s !! t with
      | Some th =>
          if pc_eqb (at_ th) Waiting
          then Some ([], Sys (shared s) (mutex s) (<[t := goto Woken th]> (threads s)))
          else None
      | None => None
      end
  end.

(** A schedule run from [s]: the output and the state reached. *)
Fixpoint run (cfg : config) (sched : list action) (s : sys)
  : option (list event * sys) :=
  match sched with
  | [] => Some ([], s)
  | a :: sched' =>
      match step cfg a s with
      | Some (evs, s1) =>
          match run cfg sched' s1 with
          | Some (tr, s2) => Some (evs ++ tr, s2)
          | None => None
          end
      | None => None
      end
  end.

(** Executions as a relation, one step added at the end. *)
Inductive execution (cfg : config) (s0 : sys) : list event -> sys -> Prop :=
  | execution_nil : execution cfg s0 [] s0
  | execution_snoc tr s a evs s' :
      execution cfg s0 tr s ->
      step cfg a s = Some (evs, s') ->
      execution cfg s0 (tr ++ evs) s'.

Definition reachable (cfg : config) (np nc : nat) (s : sys) : Prop :=
  exists tr, execution cfg (init cfg np nc) tr s.

(** ** The occupied region of the ring

    Slot [i] is occupied when it is one of the [current_items_num] slots
    that start at [out], going round the ring. *)
Definition occupied (cfg : config) (s : shared_data) (i : Z) : bool :=
  (i - out s) mod BUFFER_SIZE cfg <? current_items_num s.

(** The bodies are only run with these constants. *)
Record config_ok (cfg : config) : Prop := {
  size_pos : 0 < BUFFER_SIZE cfg;
  produce_nonneg : 0 <= items_to_produce cfg;
  consume_nonneg : 0 <= items_to_consume cfg
}.

(** Facts that tie the six integers and the array together. *)
Record data_inv (cfg : config) (s : shared_data) : Prop := {
  inv_length : length (buffer s) = Z.to_nat (BUFFER_SIZE cfg);
  inv_count : current_items_num s = produced_items s - consumed_items s;
  inv_count_lo : 0 <= current_items_num s;
  inv_count_hi : current_items_num s <= BUFFER_SIZE cfg;
  inv_consumed_lo : 0 <= consumed_items s;
  inv_produced_hi : produced_items s <= items_to_produce cfg;
  inv_consumed_hi : consumed_items s <= items_to_consume cfg;
  inv_in : in_ s = produced_items s mod BUFFER_SIZE cfg;
  inv_out : out s = consumed_items s mod BUFFER_SIZE cfg;
  inv_sentinel : forall i, 0 <= i < BUFFER_SIZE cfg ->
    occupied cfg s i = false -> buffer s !! Z.to_nat i = Some (NEUTRAL_VALUE cfg)
}.

(** What a worker has established when it enters its guarded block. *)
Definition ready (cfg : config) (k : role) (s : shared_data) : Prop :=
  match k with
  | Producer => current_items_num s <> BUFFER_SIZE cfg
  | Consumer => current_items_num s <> 0 \/ consumed_items s = items_to_consume cfg
  end.

(** What a worker has seen when it leaves its outer loop. *)
Definition finished (cfg : config) (k : role) (s : shared_data) : Prop :=
  match k with
  | Producer => items_to_produce cfg <= produced_items s
  | Consumer => items_to_consume cfg <= consumed_items s
  end.

(** Program points at which the worker owns the mutex. *)
Definition holds_mutex (p : pc) : bool :=
  match p with
  | Test | Body | Signal | Unlock => true
  | _ => false
  end.

Definition thread_ok (cfg : config) (sh : shared_data) (m : option nat)
    (t : nat) (th : thread) : Prop :=
  (holds_mutex (at_ th) = true -> m = Some t)
  /\ (at_ th = Body -> ready cfg (kind th) sh)
  /\ (at_ th = Done -> finished cfg (kind th) sh).

Record invariant (cfg : config) (s : sys) : Prop := {
  inv_data : data_inv cfg (shared s);
  inv_threads : forall t th, threads s !! t = Some th ->
    thread_ok cfg (shared s) (mutex s) t th
}.


(** The three equations between the cursors and the counters. *)
Definition ring_coherent (cfg : config) (s : shared_data) : Prop :=
  current_items_num s = produced_items s - consumed_items s
  /\ in_ s = produced_items s mod BUFFER_SIZE cfg
  /\ out s = consumed_items s mod BUFFER_SIZE cfg.

(** Every worker has returned. *)
Definition all_done (s : sys) : bool :=
  forallb (fun th => pc_eqb (at_ th) Done) (threads s).

(** ** What a step does to the shared data

    Only the guarded blocks touch the shared data or print. *)
Inductive step_kind (cfg : config) (a : action) (s : sys)
    (evs : list event) (s' : sys) : Prop :=
  | silent_step :
      evs = [] -> shared s' = shared s -> step_kind cfg a s evs s'
  | producer_body t r w th :
      a = Run t r w ->
      threads s !! t = Some th -> at_ th = Body -> kind th = Producer ->
      produce cfg (thread_i th) (data th) (shared s) = Some (evs, shared s') ->
      step_kind cfg a s evs s'
  | consumer_body t r w th d :
      a = Run t r w ->
      threads s !! t = Some th -> at_ th = Body -> kind th = Consumer ->
      consume cfg (thread_i th) (data th) (shared s) = Some (evs, d, shared s') ->
      step_kind cfg a s evs s'.

(** The role and ordinal of a worker. *)
Definition ident (th : thread) : role * Z := (kind th, thread_i th).

(** ** The output and the buffer

    The slot and value of each write and of each read, in the order of the
    output. *)

Definition put_of (e : event) : option (Z * Z) :=
  match e with Print_P _ idx d => Some (idx, d) | _ => None end.

Definition get_of (e : event) : option (Z * Z) :=
  match e with Print_C _ idx d => Some (idx, d) | _ => None end.

Definition puts (tr : list event) : list (Z * Z) := omap put_of tr.
Definition gets (tr : list event) : list (Z * Z) := omap get_of tr.

(** The output so far against the shared data: one write per produced
    item, one read per consumed item, the k-th write at slot [k mod
    BUFFER_SIZE], the reads a prefix of the writes, and every item written
    and not read is still in its slot. *)
Record trace_inv (cfg : config) (tr : list event) (s : shared_data) : Prop := {
  tr_puts_length : Z.of_nat (length (puts tr)) = produced_items s;
  tr_gets_length : Z.of_nat (length (gets tr)) = consumed_items s;
  tr_puts_index : forall k p, puts tr !! k = Some p ->
    p.1 = Z.of_nat k mod BUFFER_SIZE cfg;
  tr_fifo : gets tr `prefix_of` puts tr;
  tr_live : forall k p, puts tr !! k = Some p -> consumed_items s <= Z.of_nat k ->
    buffer s !! Z.to_nat (Z.of_nat k mod BUFFER_SIZE cfg) = Some p.2
}.

(** ** Schedules

    One pass of worker [t] through its outer loop when it does not block:
    seven statements for a producer, six for a consumer. *)
Definition producer_turn (t : nat) (r : Z) (w : nat) : list action :=
  replicate 7 (Run t r w).

Definition consumer_turn (t : nat) (w : nat) : list action :=
  replicate 6 (Run t 0 w).

(** Worker [p] produces an item and worker [c] consumes it, [n] times. *)
Fixpoint ping_pong (p c : nat) (n : nat) : list action :=
  match n with
  | O => []
  | S n' => producer_turn p (Z.of_nat n) 0 ++ consumer_turn c 0 ++ ping_pong p c n'
  end.

(** One producer and one consumer run to the end, item by item. *)
Definition lockstep_schedule (n : nat) : list action :=
  ping_pong 0 1 n ++ [Run 0 0 0; Run 1 0 0].

(** Capacity 3, five items: the producer fills the ring and blocks on its
    fourth item, the consumer takes one item and wakes it, and so on. *)
Definition small_schedule : list action :=
  producer_turn 0 10 0 ++ producer_turn 0 20 0 ++ producer_turn 0 30 0
  ++ replicate 4 (Run 0 40 0)        (* blocks: the ring is full *)
  ++ consumer_turn 1 0               (* reads slot 0, wakes the producer *)
  ++ replicate 5 (Run 0 0 0)         (* writes slot 0 *)
  ++ replicate 4 (Run 0 50 0)        (* blocks again *)
  ++ consumer_turn 1 0               (* reads slot 1, wakes the producer *)
  ++ replicate 6 (Run 0 0 0)         (* writes slot 1 and returns *)
  ++ consumer_turn 1 0 ++ consumer_turn 1 0 ++ consumer_turn 1 0
  ++ [Run 1 0 0].

(** One producer (worker 0) and two consumers (workers 1 and 2): 99 items
    go through worker 1, then both consumers block on the empty ring, the
    producer writes the last item and its signal wakes worker 1, which
    reads the item and returns. *)
Definition stranding_schedule : list action :=
  ping_pong 0 1 99
  ++ replicate 3 (Run 1 0 0)
  ++ replicate 3 (Run 2 0 0)
  ++ producer_turn 0 7 1 ++ [Run 0 0 0]
  ++ consumer_turn 1 0.

(** Worker 0 produces [n] items and nobody consumes. *)
Fixpoint fill (n : nat) : list action :=
  match n with
  | O => []
  | S n' => producer_turn 0 (Z.of_nat n) 0 ++ fill n'
  end.

(** The output and state of a schedule run from the initial state (the
    initial state itself if some step of the schedule cannot be taken). *)
Definition outcome_of (cfg : config) (np nc : nat) (sched : list action)
  : list event * sys :=
  default ([], init cfg np nc) (run cfg sched (init cfg np nc)).

(** Nine items in the ring of the source, and the producer at its guarded
    block with a tenth. *)
Definition full_but_one : sys :=
  (outcome_of source_config 1 1 (fill 9 ++ replicate 4 (Run 0 6 0))).2.

(** The ring of the source full, and the producer blocked with an eleventh
    item. *)
Definition full_ring : sys :=
  (outcome_of source_config 1 1 (fill 10 ++ replicate 4 (Run 0 6 0))).2.

(** Twelve items written and three read: the write cursor has wrapped. *)
Definition wrapped_ring : sys :=
  (outcome_of source_config 1 1
     (fill 10 ++ consumer_turn 1 0 ++ consumer_turn 1 0 ++ consumer_turn 1 0
      ++ fill 2)).2.

(** One item in the ring of the source, and the consumer at its guarded
    block. *)
Definition before_read : sys :=
  (outcome_of source_config 1 1 (fill 1 ++ replicate 3 (Run 1 0 0))).2.

(** Two producers (workers 0 and 1) and a consumer (worker 2): worker 1
    passes its outer test and draws its value, then all 100 items go
    through workers 0 and 2, and then worker 1 takes the lock and comes to
    its guarded block. *)
Definition late_producer : sys :=
  (outcome_of source_config 2 1
     (replicate 2 (Run 1 3 0) ++ ping_pong 0 2 100 ++ replicate 2 (Run 1 0 0))).2.

(** The output and state of one step (nothing and the same state if the
    step cannot be taken). *)
Definition after (cfg : config) (a : action) (s : sys) : list event * sys :=
  default ([], s) (step cfg a s).

(** ** Command line and start-up: [main] *)

(** [long] is 64 bits and [int] 32 bits (LP64); a conversion to [int] that
    does not fit keeps the low 32 bits, as GCC and Clang define it. *)
Definition LONG_MAX : Z := 9223372036854775807.
Definition LONG_MIN : Z := -9223372036854775808.

Definition to_int (x : Z) : Z := (x + 2147483648) mod 4294967296 - 2147483648.

Definition isspace (c : ascii) : bool :=
  let n := nat_of_ascii c in
  ((n =? 32) || ((9 <=? n) && (n <=? 13)))%nat.

Definition isdigit (c : ascii) : bool :=
  let n := nat_of_ascii c in ((48 <=? n) && (n <=? 57))%nat.

Definition digit_value (c : ascii) : Z := Z.of_nat (nat_of_ascii c) - 48.

Fixpoint skip_spaces (s : string) : string :=
  match s with
  | String c s' => if isspace c then skip_spaces s' else s
  | EmptyString => s
  end.

(** The sign, if there is one, and what follows it. *)
Definition read_sign (s : string) : bool * string :=
  match s with
  | String c s' =>
      if Ascii.eqb c "-" then (true, s')
      else if Ascii.eqb c "+" then (false, s')
      else (false, s)
  | EmptyString => (false, s)
  end.

(** The longest run of decimal digits at the front of [s], read onto [acc],
    and what is left of [s]. *)
Fixpoint read_digits (acc : Z) (s : string) : Z * string :=
  match s with
  | String c s' =>
      if isdigit c then read_digits (acc * 10 + digit_value c) s' else (acc, s)
  | EmptyString => (acc, s)
  end.

Definition starts_with_digit (s : string) : bool :=
  match s with
  | String c _ => isdigit c
  | EmptyString => false
  end.

(** [strtol(nptr, &str_end, 10)]: the value and the text at [str_end].
    Without a digit nothing is converted and [str_end] is [nptr]; a value
    outside [long] is replaced by [LONG_MAX] or [LONG_MIN]. *)
Definition strtol (nptr : string) : Z * string :=
  let '(neg, s) := read_sign (skip_spaces nptr) in
  if starts_with_digit s then
    let '(v, str_end) := read_digits 0 s in
    let x := if neg then - v else v in
    (Z.max LONG_MIN (Z.min LONG_MAX x), str_end)
  else (0, nptr).

(** [*str_end != '\0'] *)
Definition not_at_nul (str_end : string) : bool :=
  match str_end with
  | EmptyString => false
  | String _ _ => true
  end.

(** What [main] and [init_shared] write on the error stream, and the
    workers that [main] starts. *)
Inductive main_event :=
  | Err_usage (prog : string)
  | Err_invalid
  | Err_mutex_init (err : Z)
  | Err_cond_init (err : Z)
  | Err_create (err : Z)
  | Err_join (err : Z)
  | Started (k : role) (i : Z).

(** How a piece of [main] ends: it falls through to the next statement,
    calls [exit], or never returns from a call. *)
Inductive outcome :=
  | Next
  | Exit (code : Z)
  | Blocked.

Definition then_ (p q : list main_event * outcome) : list main_event * outcome :=
  match p with
  | (evs, Next) => (evs ++ q.1, q.2)
  | _ => p
  end.

Notation "p ;> q" := (then_ p q) (at level 65, right associativity).

(** The return values of the pthread calls of [main] and [init_shared].
    [pthread_join] does not return while the worker runs: [None]. *)
Record pthreads := Pthreads {
  mutex_init : Z;
  cond_init_empty : Z;
  cond_init_full : Z;
  create : role -> nat -> Z;
  join : role -> nat -> option Z
}.

(** The second half of [init_shared], lines 60-72.  The function returns
    [void]: its caller sees nothing of a failure. *)
Definition init_shared_sync (env : pthreads) : list main_event * outcome :=
  if negb (mutex_init env =? 0) then ([Err_mutex_init (mutex_init env)], Next)
  else if negb (cond_init_empty env =? 0) then ([Err_cond_init (cond_init_empty env)], Next)
  else if negb (cond_init_full env =? 0) then ([Err_cond_init (cond_init_full env)], Next)
  else ([], Next).

(** The creation loops, lines 186-203, over the indices [ids]. *)
Fixpoint create_workers (env : pthreads) (k : role) (ids : list nat)
  : list main_event * outcome :=
  match ids with
  | [] => ([], Next)
  | i :: ids' =>
      if negb (create env k i =? 0) then ([Err_create (create env k i)], Exit 1)
      else ([Started k (Z.of_nat i + 1)], Next) ;> create_workers env k ids'
  end.

(** The join loops, lines 206-219. *)
Fixpoint join_workers (env : pthreads) (k : role) (ids : list nat)
  : list main_event * outcome :=
  match ids with
  | [] => ([], Next)
  | i :: ids' =>
      match join env k i with
      | None => ([], Blocked)
      | Some err =>
          if negb (err =? 0) then ([Err_join err], Exit 1)
          else join_workers env k ids'
      end
  end.

(** The test of line 172 on the two arguments. *)
Definition invalid_numbers (arg1 arg2 : string) : bool :=
  let '(l1, str_end1) := strtol arg1 in
  let '(l2, str_end2) := strtol arg2 in
  let producers_num := to_int l1 in
  let consumers_num := to_int l2 in
  (not_at_nul str_end1 || (producers_num <=? 0))
  || (not_at_nul str_end2 || (consumers_num <=? 0)).

Definition main (argv : list string) (env : pthreads) : list main_event * outcome :=
  match argv with
  | [prog; arg1; arg2] =>
      if invalid_numbers arg1 arg2 then ([Err_invalid], Exit 1)
      else
        let producers_num := Z.to_nat (to_int (strtol arg1).1) in
        let consumers_num := Z.to_nat (to_int (strtol arg2).1) in
        init_shared_sync env ;>
        create_workers env Producer (seq 0 producers_num) ;>
        create_workers env Consumer (seq 0 consumers_num) ;>
        join_workers env Producer (seq 0 producers_num) ;>
        join_workers env Consumer (seq 0 consumers_num) ;>
        ([], Exit 0)
  | _ => ([Err_usage (default EmptyString (head argv))], Exit 1)
  end.

(** Every pthread call succeeds and every worker ends. *)
Definition all_fine : pthreads :=
  {| mutex_init := 0; cond_init_empty := 0; cond_init_full := 0;
     create := fun _ _ => 0; join := fun _ _ => Some 0 |}.

(** [pthread_mutex_init] fails with [ENOMEM]. *)
Definition mutex_init_fails : pthreads :=
  {| mutex_init := 12; cond_init_empty := 0; cond_init_full := 0;
     create := fun _ _ => 0; join := fun _ _ => Some 0 |}.

(** The test that [main] applies to one argument. *)
Definition number_ok (arg : string) : bool :=
  let '(l, str_end) := strtol arg in
  negb (not_at_nul str_end || (to_int l <=? 0)).

(** The integer that the whole text of an argument denotes, when the text
    is white space, an optional sign and decimal digits, and nothing else. *)
Definition written_value (arg : string) : option Z :=
  let '(neg, s) := read_sign (skip_spaces arg) in
  if starts_with_digit s then
    let '(v, rest) := read_digits 0 s in
    if not_at_nul rest then None else Some (if neg then - v else v)
  else None.

(** The argument parses completely as a positive integer. *)
Definition positive_integer (arg : string) : bool :=
  match written_value arg with
  | Some v => 0 <? v
  | None => false
  end.

(** ** One statement, seen from the worker that runs it *)

#[global] Instance role_eq_dec : EqDecision role.
Proof. solve_decision. Defined.

#[global] Instance pc_eq_dec : EqDecision pc.
Proof. solve_decision. Defined.

Definition other (k : role) : role :=
  match k with Producer => Consumer | Consumer => Producer end.

(** What the statement at program point [p] does for a worker of role [k]
    and ordinal [i], number [t] in the system: the program point, local
    [data], mutex owner and shared data before, what is printed, and the
    same four after. *)
Definition hop (cfg : config) (t : nat) (k : role) (i : Z)
    (p : pc) (d : Z) (m : option nat) (sh : shared_data) (evs : list event)
    (p' : pc) (d' : Z) (m' : option nat) (sh' : shared_data) : Prop :=
  match p with
  | While =>
      d' = d /\ m' = m /\ sh' = sh /\ evs = []
      /\ match k with
         | Producer =>
             (produced_items sh < items_to_produce cfg /\ p' = Rand)
             \/ (items_to_produce cfg <= produced_items sh /\ p' = Done)
         | Consumer =>
             (consumed_items sh < items_to_consume cfg /\ p' = Lock)
             \/ (items_to_consume cfg <= consumed_items sh /\ p' = Done)
         end
  | Rand =>
      k = Producer /\ 1 <= d' <= 99 /\ p' = Lock
      /\ m' = m /\ sh' = sh /\ evs = []
  | Lock | Woken =>
      m = None /\ m' = Some t /\ p' = Test /\ d' = d /\ sh' = sh /\ evs = []
  | Test =>
      d' = d /\ sh' = sh /\ evs = []
      /\ ((p' = Waiting /\ m' = None
           /\ match k with
              | Producer => current_items_num sh = BUFFER_SIZE cfg
              | Consumer => current_items_num sh = 0
                            /\ consumed_items sh <> items_to_consume cfg
              end)
          \/ (p' = Body /\ m' = m /\ ready cfg k sh))
  | Body =>
      p' = Signal /\ m' = m
      /\ match k with
         | Producer => d' = d /\ produce cfg i d sh = Some (evs, sh')
         | Consumer => consume cfg i d sh = Some (evs, d', sh')
         end
  | Signal => p' = Unlock /\ d' = d /\ m' = m /\ sh' = sh /\ evs = []
  | Unlock => p' = While /\ d' = d /\ m' = None /\ sh' = sh /\ evs = []
  | Waiting | Done => False
  end.

(** A worker that is neither blocked nor returned. *)
Definition awake (th : thread) : bool :=
  negb (pc_eqb (at_ th) Waiting || pc_eqb (at_ th) Done).

(** Program points of a producer at which [data] holds the value drawn for
    the item in hand. *)
Definition carries_item (p : pc) : bool :=
  match p with
  | Lock | Test | Waiting | Woken | Body => true
  | _ => false
  end.

(** The values that producers draw: [rand() % 99 + 1]. *)
Definition item_value (v : Z) : Prop := 1 <= v <= 99.

(** Every occupied slot holds an item value. *)
Definition slots_ok (cfg : config) (s : shared_data) : Prop :=
  forall i, 0 <= i < BUFFER_SIZE cfg -> occupied cfg s i = true ->
    exists v, buffer s !! Z.to_nat i = Some v /\ item_value v.

(** Every producer between its draw and its write holds an item value, and
    so does every occupied slot; only producers draw. *)
Record value_inv (cfg : config) (s : sys) : Prop := {
  val_rand : forall t th, threads s !! t = Some th ->
    at_ th = Rand -> kind th = Producer;
  val_threads : forall t th, threads s !! t = Some th ->
    kind th = Producer -> carries_item (at_ th) = true -> item_value (data th);
  val_slots : slots_ok cfg (shared s)
}.

(** As long as the target of role [k] is not met and its side of the ring
    is not exhausted, some worker of role [k] is awake or a worker of the
    other role is about to signal.  [limit k] is the number of live items at
    which workers of role [k] block. *)
Definition limit (cfg : config) (k : role) : Z :=
  match k with Producer => BUFFER_SIZE cfg | Consumer => 0 end.

Definition served (cfg : config) (k : role) (s : sys) : Prop :=
  current_items_num (shared s) = limit cfg k
  \/ finished cfg k (shared s)
  \/ (exists t th, threads s !! t = Some th /\ kind th = k /\ awake th = true)
  \/ (exists t th, threads s !! t = Some th /\ kind th = other k
                   /\ at_ th = Signal).

(** The mutex, when taken, belongs to a worker between its lock and its
    unlock or wait. *)
Definition owned (s : sys) : Prop :=
  forall t, mutex s = Some t ->
    exists th, threads s !! t = Some th /\ holds_mutex (at_ th) = true.

Record live_inv (cfg : config) (s : sys) : Prop := {
  live_owned : owned s;
  live_producers : served cfg Producer s;
  live_consumers : served cfg Consumer s
}.

(** A line of output that the workers of [np] producers and [nc] consumers
    can print with the constants [cfg]. *)
Definition event_ok (cfg : config) (np nc : nat) (e : event) : Prop :=
  match e with
  | Print_P i idx d =>
      1 <= i <= Z.of_nat np /\ 0 <= idx < BUFFER_SIZE cfg /\ item_value d
  | Print_C i idx d =>
      1 <= i <= Z.of_nat nc /\ 0 <= idx < BUFFER_SIZE cfg /\ item_value d
  | Print_buffer b => Z.of_nat (length b) = BUFFER_SIZE cfg
  end.

(** The ordinal of a worker is one that [main] gave out. *)
Definition ident_ok (np nc : nat) (id : role * Z) : Prop :=
  match id.1 with
  | Producer => 1 <= id.2 <= Z.of_nat np
  | Consumer => 1 <= id.2 <= Z.of_nat nc
  end.

(** The value written in an argument, if it is a number, fits [int]. *)
Definition fits_int (arg : string) : Prop :=
  forall v, written_value arg = Some v -> -2147483648 <= v <= 2147483647.

(** ** Arithmetic on the ring *)

Section Ring.
Variable n : Z.
Hypothesis n_pos : 0 < n.

Lemma rem_succ_mod a : Z.rem (a mod n + 1) n = (a + 1) mod n.
Proof.
  pose proof (Z.mod_pos_bound a n n_pos).
  rewrite Z.rem_mod_nonneg by lia.
  apply Zplus_mod_idemp_l.
Qed.

Lemma ring_distance p c : (p mod n - c mod n) mod n = (p - c) mod n.
Proof. rewrite Zminus_mod_idemp_l, Zminus_mod_idemp_r. reflexivity. Qed.

Lemma mod_wrap_neg a : - n <= a < 0 -> a mod n = a + n.
Proof.
  intros H. symmetry. apply (Z.mod_unique a n (-1) (a + n)); lia.
Qed.

Lemma ring_same i o :
  0 <= i < n -> 0 <= o < n -> (i - o) mod n = 0 -> i = o.
Proof.
  intros Hi Ho H.
  destruct (Z_lt_le_dec (i - o) 0) as [Hneg | Hpos].
  - rewrite mod_wrap_neg in H by lia. lia.
  - rewrite Z.mod_small in H by lia. lia.
Qed.

Lemma ring_next i o :
  0 <= i < n -> 0 <= o < n -> i <> o ->
  (i - Z.rem (o + 1) n) mod n = (i - o) mod n - 1.
Proof.
  intros Hi Ho Hne.
  rewrite Z.rem_mod_nonneg by lia.
  rewrite Zminus_mod_idemp_r.
  replace (i - (o + 1)) with ((i - o) - 1) by lia.
  rewrite <- Zminus_mod_idemp_l.
  pose proof (Z.mod_pos_bound (i - o) n n_pos).
  assert ((i - o) mod n <> 0) by (intros E; apply Hne; eauto using ring_same).
  apply Z.mod_small. lia.
Qed.

Lemma mod_apart a b : 0 < a - b < n -> a mod n <> b mod n.
Proof.
  intros H E.
  assert ((a - b) mod n = 0) as E0.
  { rewrite Zminus_mod, E, Z.sub_diag. apply Z.mod_0_l. lia. }
  rewrite Z.mod_small in E0 by lia. lia.
Qed.
End Ring.

(** ** The guarded blocks keep the data invariant *)

Lemma in_bounds_spec cfg i : in_bounds cfg i = true <-> 0 <= i < BUFFER_SIZE cfg.
Proof. unfold in_bounds. rewrite andb_true_iff, Z.leb_le, Z.ltb_lt. tauto. Qed.

Lemma init_shared_inv cfg : config_ok cfg -> data_inv cfg (init_shared cfg).
Proof.
  intros [Hn Hp Hc]. split; simpl; rewrite ?Z.mod_0_l by lia; try lia.
  - apply length_replicate.
  - intros i Hi _. apply lookup_replicate_2. lia.
Qed.

Lemma produce_inv cfg i d s evs s' :
  config_ok cfg -> data_inv cfg s -> ready cfg Producer s ->
  produce cfg i d s = Some (evs, s') -> data_inv cfg s'.
Proof.
  intros [Hn Hp Hc] Hinv Hready. pose proof Hinv as [].
  unfold produce. simpl in Hready.
  destruct (Z.ltb_spec (produced_items s) (items_to_produce cfg)); [|by intros [= <- <-]].
  destruct (in_bounds cfg (in_ s)) eqn:Hb; [|done].
  apply in_bounds_spec in Hb.
  intros [= <- <-]. split; simpl; try lia.
  - by rewrite length_insert.
  - rewrite inv_in0. by apply rem_succ_mod.
  - unfold occupied; simpl. intros j Hj Hocc. apply Z.ltb_ge in Hocc.
    assert ((in_ s - out s) mod BUFFER_SIZE cfg = current_items_num s) as Hd.
    { rewrite inv_in0, inv_out0, ring_distance, <- inv_count0.
      apply Z.mod_small. lia. }
    rewrite list_lookup_insert_ne by (intros E; apply Z2Nat.inj in E; subst; lia).
    apply inv_sentinel0; [done|]. unfold occupied. apply Z.ltb_ge. lia.
Qed.

Lemma consume_inv cfg i d0 s evs d s' :
  config_ok cfg -> data_inv cfg s -> ready cfg Consumer s ->
  consume cfg i d0 s = Some (evs, d, s') -> data_inv cfg s'.
Proof.
  intros [Hn Hp Hc] Hinv Hready. pose proof Hinv as [].
  unfold consume. simpl in Hready.
  destruct (Z.ltb_spec (consumed_items s) (items_to_consume cfg)); [|by intros [= <- <- <-]].
  destruct (in_bounds cfg (out s)) eqn:Hb; [|done].
  apply in_bounds_spec in Hb.
  destruct (buffer s !! Z.to_nat (out s)) as [v|] eqn:Hv; [|done].
  intros [= <- <- <-]. split; simpl; try lia.
  - by rewrite length_insert.
  - rewrite inv_out0. by apply rem_succ_mod.
  - unfold occupied; simpl. intros j Hj Hocc. apply Z.ltb_ge in Hocc.
    destruct (decide (j = out s)) as [-> | Hne].
    + apply list_lookup_insert_eq. by eapply lookup_lt_Some.
    + rewrite list_lookup_insert_ne by (intros E; apply Z2Nat.inj in E; subst; lia).
      rewrite ring_next in Hocc by lia.
      apply inv_sentinel0; [done|]. unfold occupied. apply Z.ltb_ge. lia.
Qed.

Lemma produce_counters cfg i d s evs s' :
  produce cfg i d s = Some (evs, s') ->
  produced_items s <= produced_items s' <= produced_items s + 1
  /\ consumed_items s' = consumed_items s.
Proof.
  unfold produce. repeat case_match; intros [= <- <-]; simpl; lia.
Qed.

Lemma consume_counters cfg i d0 s evs d s' :
  consume cfg i d0 s = Some (evs, d, s') ->
  consumed_items s <= consumed_items s' <= consumed_items s + 1
  /\ produced_items s' = produced_items s.
Proof.
  unfold consume. repeat case_match; intros [= <- <- <-]; simpl; lia.
Qed.

(** ** The mutex discipline *)

Lemma lookup_move (ths : list thread) t th' t0 th0 :
  <[t := th']> ths !! t0 = Some th0 ->
  (t0 = t /\ th0 = th') \/ (t0 <> t /\ ths !! t0 = Some th0).
Proof.
  intros H. apply list_lookup_insert_Some in H as [(-> & -> & _) | [Hne H]]; auto.
Qed.

Lemma cond_signal_lookup k w ths ths' t0 th0 :
  cond_signal k w ths = Some ths' -> ths' !! t0 = Some th0 ->
  ths !! t0 = Some th0 \/ exists th1, ths !! t0 = Some th1 /\ th0 = goto Woken th1.
Proof.
  unfold cond_signal. intros Hs Hl.
  destruct (ths !! w) as [thw|] eqn:Hw.
  - destruct (waits k thw).
    + injection Hs as <-. apply lookup_move in Hl as [[-> ->] | [_ Hl]]; eauto.
    + destruct (existsb _ _); [done|]. injection Hs as <-. auto.
  - destruct (existsb _ _); [done|]. injection Hs as <-. auto.
Qed.

Lemma thread_ok_woken cfg sh m t th : thread_ok cfg sh m t (goto Woken th).
Proof. repeat split; simpl; intros; discriminate. Qed.

(** A step of worker [t] that changes the mutex only if [t] takes or gives
    it, and the shared data only while [t] owns it, keeps what the other
    workers have established. *)
Lemma thread_ok_frame cfg sh m sh' m' t t0 th0 :
  thread_ok cfg sh m t0 th0 -> t0 <> t ->
  m' = m \/ m = None \/ m = Some t ->
  sh' = sh \/ (m = Some t /\ produced_items sh <= produced_items sh'
               /\ consumed_items sh <= consumed_items sh') ->
  thread_ok cfg sh' m' t0 th0.
Proof.
  intros (Ho & Hb & Hd) Hne Hm Hsh. repeat split.
  - intros Hh. specialize (Ho Hh). destruct Hm as [-> | [-> | ->]]; congruence.
  - intros Hat. destruct Hsh as [-> | (Hm1 & _)]; [auto|].
    rewrite Hat in Ho. specialize (Ho eq_refl). congruence.
  - intros Hat. specialize (Hd Hat). destruct Hsh as [-> | (_ & ? & ?)]; [auto|].
    unfold finished in *. destruct (kind th0); lia.
Qed.

Lemma init_inv cfg np nc : config_ok cfg -> invariant cfg (init cfg np nc).
Proof.
  intros Hcfg. split; simpl; [by apply init_shared_inv|].
  intros t th Hl.
  assert (at_ th = While) as Hat.
  { apply lookup_app_Some in Hl as [Hl | [_ Hl]];
      apply list_lookup_fmap_Some_1 in Hl as (? & -> & _); done. }
  repeat split; rewrite Hat; simpl; intros; discriminate.
Qed.

(** ** Every step keeps the invariant *)

Lemma ready_producer cfg s :
  (current_items_num s =? BUFFER_SIZE cfg) = false -> ready cfg Producer s.
Proof. intros H. by apply Z.eqb_neq. Qed.

Lemma ready_consumer cfg s :
  (current_items_num s =? 0)
    && negb (consumed_items s =? items_to_consume cfg) = false ->
  ready cfg Consumer s.
Proof.
  intros H. apply andb_false_iff in H as [H | H].
  - left. by apply Z.eqb_neq.
  - right. apply negb_false_iff in H. by apply Z.eqb_eq.
Qed.

Ltac other_threads Hths :=
  eapply thread_ok_frame; [by apply Hths | done | auto | auto].

Ltac moved_thread :=
  repeat split; simpl; intros; try discriminate; auto.

Lemma step_thread_inv cfg t r w s evs s' :
  config_ok cfg -> invariant cfg s ->
  step_thread cfg t r w s = Some (evs, s') -> invariant cfg s'.
Proof.
  intros Hcfg [Hdata Hths]. unfold step_thread.
  destruct (threads s !! t) as [th|] eqn:Hth; [|done].
  pose proof (Hths t th Hth) as (Hown & Hbody & Hdone).
  assert (forall p m sh,
    (holds_mutex p = true -> m = Some t) ->
    (p = Body -> ready cfg (kind th) sh) ->
    (p = Done -> finished cfg (kind th) sh) ->
    m = mutex s \/ mutex s = None \/ mutex s = Some t ->
    sh = shared s ->
    invariant cfg (Sys sh m (<[t := goto p th]> (threads s)))) as Hmove.
  { intros p m sh Hp1 Hp2 Hp3 Hm ->. split; simpl; [done|].
    intros t0 th0 Hl. apply lookup_move in Hl as [[-> ->] | [Hne Hl]].
    - by repeat split.
    - other_threads Hths. }
  destruct (at_ th) eqn:Hat, (kind th) eqn:Hk; simpl in *;
    try discriminate.
  - (* While, producer *)
    case_match eqn:Htest; intros [= <- <-]; apply Hmove; auto; try discriminate.
    intros _. by apply Z.ltb_ge.
  - (* While, consumer *)
    case_match eqn:Htest; intros [= <- <-]; apply Hmove; auto; try discriminate.
    intros _. by apply Z.ltb_ge.
  - (* Rand *)
    case_match; [|done]. intros [= <- <-]. split; simpl; [done|].
    intros t0 th0 Hl. apply lookup_move in Hl as [[-> ->] | [Hne Hl]].
    + moved_thread.
    + other_threads Hths.
  - (* Lock, producer *)
    destruct (mutex s) eqn:Hm; [done|]. intros [= <- <-].
    apply Hmove; auto; discriminate.
  - (* Lock, consumer *)
    destruct (mutex s) eqn:Hm; [done|]. intros [= <- <-].
    apply Hmove; auto; discriminate.
  - (* Test, producer *)
    case_match eqn:Htest; intros [= <- <-]; apply Hmove; auto; try discriminate.
    intros _. by apply ready_producer.
  - (* Test, consumer *)
    case_match eqn:Htest; intros [= <- <-]; apply Hmove; auto; try discriminate.
    intros _. by apply ready_consumer.
  - (* Woken, producer *)
    destruct (mutex s) eqn:Hm; [done|]. intros [= <- <-].
    apply Hmove; auto; discriminate.
  - (* Woken, consumer *)
    destruct (mutex s) eqn:Hm; [done|]. intros [= <- <-].
    apply Hmove; auto; discriminate.
  - (* Body, producer *)
    destruct (produce _ _ _ _) as [[evs' sh]|] eqn:Hp; [|done].
    intros [= <- <-]. split; simpl.
    + eapply produce_inv; [done | done | by apply Hbody | exact Hp].
    + apply produce_counters in Hp as [? ?].
      intros t0 th0 Hl. apply lookup_move in Hl as [[-> ->] | [Hne Hl]].
      * moved_thread.
      * other_threads Hths. right. split; [auto|lia].
  - (* Body, consumer *)
    destruct (consume _ _ _ _) as [[[evs' d] sh]|] eqn:Hc; [|done].
    intros [= <- <-]. split; simpl.
    + eapply consume_inv; [done | done | by apply Hbody | exact Hc].
    + apply consume_counters in Hc as [? ?].
      intros t0 th0 Hl. apply lookup_move in Hl as [[-> ->] | [Hne Hl]].
      * moved_thread.
      * other_threads Hths. right. split; [auto|lia].
  - (* Signal, producer *)
    destruct (cond_signal _ _ _) as [ths|] eqn:Hs; [|done].
    intros [= <- <-]. split; simpl; [done|].
    intros t0 th0 Hl.
    destruct (cond_signal_lookup _ _ _ _ _ _ Hs Hl) as [Hl' | (th1 & _ & ->)];
      [|apply thread_ok_woken].
    apply lookup_move in Hl' as [[-> ->] | [Hne Hl']].
    + moved_thread.
    + other_threads Hths.
  - (* Signal, consumer *)
    destruct (cond_signal _ _ _) as [ths|] eqn:Hs; [|done].
    intros [= <- <-]. split; simpl; [done|].
    intros t0 th0 Hl.
    destruct (cond_signal_lookup _ _ _ _ _ _ Hs Hl) as [Hl' | (th1 & _ & ->)];
      [|apply thread_ok_woken].
    apply lookup_move in Hl' as [[-> ->] | [Hne Hl']].
    + moved_thread.
    + other_threads Hths.
  - (* Unlock, producer *)
    intros [= <- <-]. apply Hmove; auto; discriminate.
  - (* Unlock, consumer *)
    intros [= <- <-]. apply Hmove; auto; discriminate.
Qed.

Lemma step_inv cfg a s evs s' :
  config_ok cfg -> invariant cfg s ->
  step cfg a s = Some (evs, s') -> invariant cfg s'.
Proof.
  intros Hcfg Hinv. destruct a as [t r w | t]; simpl.
  - by apply step_thread_inv.
  - destruct (threads s !! t) as [th|] eqn:Hth; [|done].
    destruct (pc_eqb (at_ th) Waiting); [|done].
    intros [= <- <-]. destruct Hinv as [Hdata Hths]. split; simpl; [done|].
    intros t0 th0 Hl. apply lookup_move in Hl as [[-> ->] | [Hne Hl]].
    + apply thread_ok_woken.
    + auto.
Qed.

Lemma execution_inv cfg s0 tr s :
  config_ok cfg -> invariant cfg s0 -> execution cfg s0 tr s -> invariant cfg s.
Proof. intros Hcfg H0. induction 1; eauto using step_inv. Qed.

Lemma reachable_inv cfg np nc s :
  config_ok cfg -> reachable cfg np nc s -> invariant cfg s.
Proof. intros Hcfg [tr Hex]. eauto using execution_inv, init_inv. Qed.

(** ** Schedules are executions *)

Lemma execution_cons cfg a s evs s1 tr s2 :
  step cfg a s = Some (evs, s1) -> execution cfg s1 tr s2 ->
  execution cfg s (evs ++ tr) s2.
Proof.
  intros Hstep Hex. induction Hex as [|tr s2 b evs' s3 _ IH Hb].
  - rewrite app_nil_r. apply (execution_snoc cfg s [] s a evs s1); [constructor|done].
  - rewrite app_assoc. by eapply execution_snoc.
Qed.

Lemma run_execution cfg sched s tr s' :
  run cfg sched s = Some (tr, s') -> execution cfg s tr s'.
Proof.
  revert s tr s'. induction sched as [|a sched IH]; simpl; intros s tr s'.
  - intros [= <- <-]. constructor.
  - destruct (step cfg a s) as [[evs s1]|] eqn:Hstep; [|done].
    destruct (run cfg sched s1) as [[tr1 s2]|] eqn:Hrun; [|done].
    intros [= <- <-]. eauto using execution_cons.
Qed.

Lemma run_reachable cfg np nc sched tr s :
  run cfg sched (init cfg np nc) = Some (tr, s) -> reachable cfg np nc s.
Proof. intros H. exists tr. by eapply run_execution. Qed.

Lemma run_app cfg sched1 sched2 s tr1 s1 :
  run cfg sched1 s = Some (tr1, s1) ->
  run cfg (sched1 ++ sched2) s =
    match run cfg sched2 s1 with
    | Some (tr2, s2) => Some (tr1 ++ tr2, s2)
    | None => None
    end.
Proof.
  revert s tr1 s1. induction sched1 as [|a sched1 IH]; simpl; intros s tr1 s1.
  - intros [= <- <-]. by destruct (run cfg sched2 s) as [[??]|].
  - destruct (step cfg a s) as [[evs s']|]; [|done].
    destruct (run cfg sched1 s') as [[tr' s'']|] eqn:Hrun; [|done].
    intros [= <- <-]. rewrite (IH _ _ _ Hrun).
    destruct (run cfg sched2 _) as [[??]|]; [|done]. by rewrite app_assoc.
Qed.

(** ** Steps sorted by what they do to the shared data *)

Lemma step_thread_kind cfg t r w s evs s' :
  step_thread cfg t r w s = Some (evs, s') ->
  step_kind cfg (Run t r w) s evs s'.
Proof.
  unfold step_thread. destruct (threads s !! t) as [th|] eqn:Hth; [|done].
  destruct (at_ th) eqn:Hat, (kind th) eqn:Hk;
    repeat case_match; intros [= <- <-]; simplify_eq;
    solve [ by apply silent_step
          | by eapply producer_body
          | by eapply consumer_body ].
Qed.

Lemma step_step_kind cfg a s evs s' :
  step cfg a s = Some (evs, s') -> step_kind cfg a s evs s'.
Proof.
  destruct a as [t r w | t]; simpl; [apply step_thread_kind|].
  repeat case_match; intros [= <- <-]; by apply silent_step.
Qed.

(** ** The workers keep their role and ordinal *)


Lemma fmap_ident_insert (ths : list thread) t th th' :
  ths !! t = Some th -> ident th' = ident th ->
  ident <$> <[t := th']> ths = ident <$> ths.
Proof.
  intros Hl Hid. rewrite list_fmap_insert, Hid.
  apply list_insert_id. by rewrite list_lookup_fmap, Hl.
Qed.

Lemma cond_signal_ident k w ths ths' :
  cond_signal k w ths = Some ths' -> ident <$> ths' = ident <$> ths.
Proof.
  unfold cond_signal. repeat case_match; intros [= <-]; try done.
  by eapply fmap_ident_insert.
Qed.

Lemma step_ident cfg a s evs s' :
  step cfg a s = Some (evs, s') ->
  ident <$> threads s' = ident <$> threads s.
Proof.
  destruct a as [t r w | t]; simpl; unfold step_thread.
  - destruct (threads s !! t) as [th|] eqn:Hth; [|done].
    destruct (at_ th) eqn:Hat, (kind th) eqn:Hk;
      repeat case_match; intros [= <- <-]; simplify_eq; simpl;
      try (by eapply fmap_ident_insert);
      (erewrite cond_signal_ident by done; by eapply fmap_ident_insert).
  - repeat case_match; intros [= <- <-]; simpl. by eapply fmap_ident_insert.
Qed.

Lemma execution_ident cfg s0 tr s :
  execution cfg s0 tr s -> ident <$> threads s = ident <$> threads s0.
Proof.
  induction 1 as [|tr s a evs s' _ IH Hstep]; [done|].
  apply step_ident in Hstep. congruence.
Qed.

(** ** Every execution keeps the output in step with the buffer *)

Lemma prefix_snoc {A} (l1 l2 : list A) x :
  l1 `prefix_of` l2 -> l2 !! length l1 = Some x -> (l1 ++ [x]) `prefix_of` l2.
Proof.
  intros [k ->] Hl. rewrite lookup_app_r, Nat.sub_diag in Hl by lia.
  destruct k as [|y k]; simplify_eq/=. exists k. by rewrite <- app_assoc.
Qed.

Lemma slot_apart cfg a b :
  0 < BUFFER_SIZE cfg -> 0 < a - b < BUFFER_SIZE cfg ->
  Z.to_nat (a mod BUFFER_SIZE cfg) <> Z.to_nat (b mod BUFFER_SIZE cfg).
Proof.
  intros Hn Hab E.
  pose proof (Z.mod_pos_bound a _ Hn). pose proof (Z.mod_pos_bound b _ Hn).
  apply Z2Nat.inj in E; [|lia..]. by eapply mod_apart.
Qed.

Lemma produce_trace_inv cfg tr i d s evs s' :
  config_ok cfg -> data_inv cfg s -> ready cfg Producer s ->
  trace_inv cfg tr s ->
  produce cfg i d s = Some (evs, s') -> trace_inv cfg (tr ++ evs) s'.
Proof.
  intros [Hn Hp Hc] [] Hready []. simpl in Hready. unfold produce.
  destruct (Z.ltb_spec (produced_items s) (items_to_produce cfg));
    [|intros [= <- <-]; by rewrite app_nil_r].
  destruct (in_bounds cfg (in_ s)) eqn:Hb; [|done].
  apply in_bounds_spec in Hb. intros [= <- <-].
  split; simpl; unfold puts, gets in *; rewrite ?omap_app; simpl;
    rewrite ?app_nil_r.
  - rewrite length_app. simpl. lia.
  - done.
  - intros k p Hk. apply lookup_app_Some in Hk as [Hk | [Hle Hk]]; [eauto|].
    apply list_lookup_singleton_Some in Hk as [Hk <-]. simpl.
    replace k with (length (omap put_of tr)) by lia. congruence.
  - by apply prefix_app_r.
  - intros k p Hk Hge. apply lookup_app_Some in Hk as [Hk | [Hle Hk]].
    + pose proof (lookup_lt_Some _ _ _ Hk).
      rewrite list_lookup_insert_ne; [eauto|].
      rewrite inv_in0. apply slot_apart; lia.
    + apply list_lookup_singleton_Some in Hk as [Hk <-]. simpl.
      replace (Z.of_nat k) with (produced_items s) by lia.
      rewrite <- inv_in0. apply list_lookup_insert_eq. lia.
Qed.

Lemma consume_trace_inv cfg tr i d0 s evs d s' :
  config_ok cfg -> data_inv cfg s -> ready cfg Consumer s ->
  trace_inv cfg tr s ->
  consume cfg i d0 s = Some (evs, d, s') -> trace_inv cfg (tr ++ evs) s'.
Proof.
  intros [Hn Hp Hc] [] Hready []. simpl in Hready. unfold consume.
  destruct (Z.ltb_spec (consumed_items s) (items_to_consume cfg));
    [|intros [= <- <- <-]; by rewrite app_nil_r].
  destruct (in_bounds cfg (out s)) eqn:Hb; [|done].
  apply in_bounds_spec in Hb.
  destruct (buffer s !! Z.to_nat (out s)) as [v|] eqn:Hv; [|done].
  intros [= <- <- <-].
  split; simpl; unfold puts, gets in *; rewrite ?omap_app; simpl;
    rewrite ?app_nil_r.
  - done.
  - rewrite length_app. simpl. lia.
  - done.
  - apply prefix_snoc; [done|].
    destruct (lookup_lt_is_Some_2 (omap put_of tr) (length (omap get_of tr)))
      as [[idx x] Hk]; [lia|].
    rewrite Hk. f_equal.
    pose proof (tr_puts_index0 _ _ Hk) as Hidx.
    pose proof (tr_live0 _ _ Hk) as Hlive. simpl in *.
    rewrite tr_gets_length0, <- inv_out0 in Hidx, Hlive.
    rewrite Hv in Hlive. specialize (Hlive ltac:(lia)). congruence.
  - intros k p Hk Hge. pose proof (lookup_lt_Some _ _ _ Hk).
    rewrite list_lookup_insert_ne; [apply tr_live0; [done|lia]|].
    rewrite inv_out0. apply not_eq_sym, slot_apart; lia.
Qed.

Lemma init_trace_inv cfg : trace_inv cfg [] (init_shared cfg).
Proof. split; simpl; try done. Qed.

Lemma execution_trace_inv cfg np nc tr s :
  config_ok cfg -> execution cfg (init cfg np nc) tr s ->
  trace_inv cfg tr (shared s).
Proof.
  intros Hcfg. induction 1 as [|tr s a evs s' Hex IH Hstep].
  - apply init_trace_inv.
  - assert (invariant cfg s) as [Hdata Hths]
      by eauto using execution_inv, init_inv.
    destruct (step_step_kind _ _ _ _ _ Hstep)
      as [-> Hsh | t r w th _ Hl Hat Hk Hp | t r w th d _ Hl Hat Hk Hc].
    + by rewrite app_nil_r, Hsh.
    + destruct (Hths _ _ Hl) as (_ & Hready & _). rewrite Hk in Hready.
      eauto using produce_trace_inv.
    + destruct (Hths _ _ Hl) as (_ & Hready & _). rewrite Hk in Hready.
      eauto using consume_trace_inv.
Qed.

(** ** Concrete runs *)

Lemma outcome_execution cfg np nc sched :
  execution cfg (init cfg np nc)
    (outcome_of cfg np nc sched).1 (outcome_of cfg np nc sched).2.
Proof.
  unfold outcome_of.
  destruct (run cfg sched (init cfg np nc)) as [[tr s]|] eqn:Hrun; simpl.
  - by eapply run_execution.
  - constructor.
Qed.

Lemma outcome_reachable cfg np nc sched :
  reachable cfg np nc (outcome_of cfg np nc sched).2.
Proof. eexists. apply outcome_execution. Qed.

Lemma source_config_ok : config_ok source_config.
Proof. by split. Qed.

Lemma small_config_ok : config_ok small_config.
Proof. by split. Qed.

(** ** Consequences of the invariant *)

Lemma pc_eqb_eq p q : pc_eqb p q = true -> p = q.
Proof. by destruct p, q. Qed.

Lemma all_done_lookup s t th :
  all_done s = true -> threads s !! t = Some th -> at_ th = Done.
Proof.
  unfold all_done. rewrite forallb_forall. intros Hall Hl.
  apply pc_eqb_eq, Hall, list_elem_of_In. by eapply list_elem_of_lookup_2.
Qed.

Lemma init_has_producer cfg np nc :
  (0 < np)%nat -> (ident <$> threads (init cfg np nc)) !! 0%nat = Some (Producer, 1).
Proof.
  intros Hnp. destruct np as [|np]; [lia|]. reflexivity.
Qed.

Lemma init_has_consumer cfg np nc :
  (0 < nc)%nat -> (ident <$> threads (init cfg np nc)) !! np = Some (Consumer, 1).
Proof.
  intros Hnc. destruct nc as [|nc]; [lia|]. simpl.
  rewrite fmap_app, lookup_app_r by (by rewrite !length_fmap, length_seq).
  by rewrite !length_fmap, length_seq, Nat.sub_diag.
Qed.

Lemma has_role cfg s0 tr s t k i :
  execution cfg s0 tr s -> (ident <$> threads s0) !! t = Some (k, i) ->
  exists th, threads s !! t = Some th /\ kind th = k.
Proof.
  intros Hex Hl. rewrite <- (execution_ident _ _ _ _ Hex) in Hl.
  apply list_lookup_fmap_Some_1 in Hl as (th & Heq & Hl).
  injection Heq as -> _. eauto.
Qed.

(** When every worker has returned, both targets are met exactly. *)
Lemma completed_counters cfg np nc tr s :
  config_ok cfg -> (0 < np)%nat -> (0 < nc)%nat ->
  execution cfg (init cfg np nc) tr s -> all_done s = true ->
  produced_items (shared s) = items_to_produce cfg
  /\ consumed_items (shared s) = items_to_consume cfg.
Proof.
  intros Hcfg Hnp Hnc Hex Hdone.
  destruct (execution_inv _ _ _ _ Hcfg (init_inv cfg np nc Hcfg) Hex)
    as [[] Hths].
  destruct (has_role _ _ _ _ _ _ _ Hex (init_has_producer cfg np nc Hnp))
    as (thp & Hlp & Hkp).
  destruct (has_role _ _ _ _ _ _ _ Hex (init_has_consumer cfg np nc Hnc))
    as (thc & Hlc & Hkc).
  destruct (Hths _ _ Hlp) as (_ & _ & Hp). destruct (Hths _ _ Hlc) as (_ & _ & Hc).
  rewrite Hkp in Hp. rewrite Hkc in Hc. simpl in Hp, Hc.
  specialize (Hp (all_done_lookup _ _ _ Hdone Hlp)).
  specialize (Hc (all_done_lookup _ _ _ Hdone Hlc)). lia.
Qed.

Lemma data_inv_coherent cfg s : data_inv cfg s -> ring_coherent cfg s.
Proof. by intros []. Qed.

Lemma produce_coherent cfg i d s evs s' :
  0 < BUFFER_SIZE cfg -> ring_coherent cfg s ->
  produce cfg i d s = Some (evs, s') -> ring_coherent cfg s'.
Proof.
  intros Hn (Hcount & Hin & Hout). unfold produce.
  destruct (_ <? _); [|by intros [= <- <-]].
  destruct (in_bounds _ _); [|done]. intros [= <- <-].
  repeat split; simpl; [lia| |done]. rewrite Hin. by apply rem_succ_mod.
Qed.

Lemma consume_coherent cfg i d0 s evs d s' :
  0 < BUFFER_SIZE cfg -> ring_coherent cfg s ->
  consume cfg i d0 s = Some (evs, d, s') -> ring_coherent cfg s'.
Proof.
  intros Hn (Hcount & Hin & Hout). unfold consume.
  destruct (_ <? _); [|by intros [= <- <- <-]].
  destruct (in_bounds _ _); [|done].
  destruct (_ !! _); [|done]. intros [= <- <- <-].
  repeat split; simpl; [lia|done|]. rewrite Hout. by apply rem_succ_mod.
Qed.

(** The three equations are kept by every step, from any state. *)
Lemma step_coherent cfg a s evs s' :
  0 < BUFFER_SIZE cfg -> ring_coherent cfg (shared s) ->
  step cfg a s = Some (evs, s') -> ring_coherent cfg (shared s').
Proof.
  intros Hn Hco Hstep.
  destruct (step_step_kind _ _ _ _ _ Hstep)
    as [_ -> | t r w th _ _ _ _ Hp | t r w th d _ _ _ _ Hc];
    eauto using produce_coherent, consume_coherent.
Qed.

(** ** What the guarded blocks print and store *)

Lemma produce_events cfg i d s evs s' :
  produce cfg i d s = Some (evs, s') ->
  (items_to_produce cfg <= produced_items s /\ evs = [] /\ s' = s)
  \/ (produced_items s < items_to_produce cfg
      /\ 0 <= in_ s < BUFFER_SIZE cfg
      /\ evs = [Print_P i (in_ s) d; Print_buffer (buffer s')]
      /\ buffer s' = <[Z.to_nat (in_ s) := d]> (buffer s)).
Proof.
  unfold produce.
  destruct (Z.ltb_spec (produced_items s) (items_to_produce cfg));
    [|intros [= <- <-]; auto].
  destruct (in_bounds cfg (in_ s)) eqn:Hb; [|done].
  apply in_bounds_spec in Hb. intros [= <- <-]. right. auto.
Qed.

Lemma consume_events cfg i d0 s evs d s' :
  consume cfg i d0 s = Some (evs, d, s') ->
  (items_to_consume cfg <= consumed_items s /\ evs = [] /\ d = d0 /\ s' = s)
  \/ (consumed_items s < items_to_consume cfg
      /\ 0 <= out s < BUFFER_SIZE cfg
      /\ buffer s !! Z.to_nat (out s) = Some d
      /\ evs = [Print_C i (out s) d; Print_buffer (buffer s')]
      /\ buffer s' = <[Z.to_nat (out s) := NEUTRAL_VALUE cfg]> (buffer s)).
Proof.
  unfold consume.
  destruct (Z.ltb_spec (consumed_items s) (items_to_consume cfg));
    [|intros [= <- <- <-]; auto].
  destruct (in_bounds cfg (out s)) eqn:Hb; [|done].
  apply in_bounds_spec in Hb.
  destruct (buffer s !! Z.to_nat (out s)) as [v|] eqn:Hv; [|done].
  intros [= <- <- <-]. right. auto 6.
Qed.

Ltac in_output H :=
  repeat (apply elem_of_cons in H as [H | H]; [try discriminate H|]);
  try (by apply elem_of_nil in H).

(** A write finds room in the ring, and the slot it takes holds the
    neutral value. *)
Lemma write_needs_room cfg np nc s a evs s' i idx d :
  config_ok cfg -> reachable cfg np nc s ->
  step cfg a s = Some (evs, s') -> Print_P i idx d ∈ evs ->
  current_items_num (shared s) < BUFFER_SIZE cfg
  /\ idx = in_ (shared s)
  /\ buffer (shared s) !! Z.to_nat idx = Some (NEUTRAL_VALUE cfg)
  /\ buffer (shared s') !! Z.to_nat idx = Some d.
Proof.
  intros Hcfg Hreach Hstep Hin.
  destruct (reachable_inv _ _ _ _ Hcfg Hreach) as [[] Hths].
  destruct Hcfg as [Hn _ _].
  destruct (step_step_kind _ _ _ _ _ Hstep)
    as [-> _ | t r w th _ Hl Hat Hk Hp | t r w th d' _ _ _ _ Hc].
  - in_output Hin.
  - destruct (Hths _ _ Hl) as (_ & Hready & _).
    specialize (Hready Hat). rewrite Hk in Hready. simpl in Hready.
    apply produce_events in Hp as [(_ & -> & _) | (_ & Hb & -> & Hbuf)];
      in_output Hin.
    injection Hin as -> -> ->. repeat split; [lia| |].
    + apply inv_sentinel0; [done|]. unfold occupied. apply Z.ltb_ge.
      rewrite inv_in0, inv_out0, ring_distance, <- inv_count0 by done.
      rewrite Z.mod_small; lia.
    + rewrite Hbuf. apply list_lookup_insert_eq. lia.
  - apply consume_events in Hc as [(_ & -> & _) | (_ & _ & _ & -> & _)];
      in_output Hin.
Qed.

(** A read leaves the neutral value in the slot it has read. *)
Lemma read_leaves_sentinel cfg a s evs s' i idx d :
  step cfg a s = Some (evs, s') -> Print_C i idx d ∈ evs ->
  idx = out (shared s) /\ 0 <= idx
  /\ buffer (shared s) !! Z.to_nat idx = Some d
  /\ buffer (shared s') !! Z.to_nat idx = Some (NEUTRAL_VALUE cfg).
Proof.
  intros Hstep Hin.
  destruct (step_step_kind _ _ _ _ _ Hstep)
    as [-> _ | t r w th _ _ _ _ Hp | t r w th d' _ _ _ _ Hc].
  - in_output Hin.
  - apply produce_events in Hp as [(_ & -> & _) | (_ & _ & -> & _)];
      in_output Hin.
  - apply consume_events in Hc as [(_ & -> & _) | (_ & Hb & Hv & -> & Hbuf)];
      in_output Hin.
    injection Hin as -> -> ->. repeat split; [lia|done|].
    rewrite Hbuf. apply list_lookup_insert_eq. by eapply lookup_lt_Some.
Qed.

(** A slot with the neutral value keeps it through every step that is not
    a write to that slot. *)
Lemma sentinel_stays cfg a s evs s' (j : nat) :
  step cfg a s = Some (evs, s') ->
  buffer (shared s) !! j = Some (NEUTRAL_VALUE cfg) ->
  (forall i d, Print_P i (Z.of_nat j) d ∉ evs) ->
  buffer (shared s') !! j = Some (NEUTRAL_VALUE cfg).
Proof.
  intros Hstep Hj Hnot.
  destruct (step_step_kind _ _ _ _ _ Hstep)
    as [_ -> | t r w th _ _ _ _ Hp | t r w th d' _ _ _ _ Hc]; [done|..].
  - apply produce_events in Hp as [(_ & _ & ->) | (_ & Hb & -> & ->)]; [done|].
    rewrite list_lookup_insert_ne; [done|]. intros <-.
    apply (Hnot (thread_i th) (data th)). rewrite Z2Nat.id by lia. left.
  - apply consume_events in Hc as [(_ & _ & _ & ->) | (_ & _ & _ & _ & ->)]; [done|].
    destruct (decide (Z.to_nat (out (shared s)) = j)) as [<- | Hne].
    + apply list_lookup_insert_eq. by eapply lookup_lt_Some.
    + by rewrite list_lookup_insert_ne.
Qed.

(** ** The counters *)

Lemma step_monotone cfg a s evs s' :
  step cfg a s = Some (evs, s') ->
  produced_items (shared s) <= produced_items (shared s')
  /\ consumed_items (shared s) <= consumed_items (shared s').
Proof.
  intros Hstep.
  destruct (step_step_kind _ _ _ _ _ Hstep)
    as [_ -> | t r w th _ _ _ _ Hp | t r w th d' _ _ _ _ Hc]; [lia|..].
  - apply produce_counters in Hp. lia.
  - apply consume_counters in Hc. lia.
Qed.

(** Once the target of its role is met, no statement of a worker changes
    the shared data or prints. *)
Lemma late_worker cfg t r w s evs s' th :
  step cfg (Run t r w) s = Some (evs, s') -> threads s !! t = Some th ->
  finished cfg (kind th) (shared s) ->
  shared s' = shared s /\ evs = [].
Proof.
  intros Hstep Hl Hfin.
  destruct (step_step_kind _ _ _ _ _ Hstep)
    as [-> -> | t' r' w' th' [= <- _ _] Hl' _ Hk Hp
        | t' r' w' th' d' [= <- _ _] Hl' _ Hk Hc]; [done|..];
    rewrite Hl in Hl'; injection Hl' as <-; rewrite Hk in Hfin; simpl in Hfin.
  - apply produce_events in Hp as [(_ & -> & ->) | (? & _)]; [done|lia].
  - apply consume_events in Hc as [(_ & -> & _ & ->) | (? & _)]; [done|lia].
Qed.

(** Such a worker is not held up in its guarded block: it goes on to its
    signal. *)
Lemma late_worker_passes cfg t r w s th :
  threads s !! t = Some th -> at_ th = Body ->
  finished cfg (kind th) (shared s) ->
  step cfg (Run t r w) s
  = Some ([], Sys (shared s) (mutex s) (<[t := goto Signal th]> (threads s))).
Proof.
  intros Hl Hat Hfin. simpl. unfold step_thread. rewrite Hl, Hat.
  destruct th as [k i p d]. simpl in *. destruct k; simpl in *.
  - unfold produce. by rewrite (proj2 (Z.ltb_ge _ _) Hfin).
  - unfold consume. by rewrite (proj2 (Z.ltb_ge _ _) Hfin).
Qed.

Lemma sentinel_stays_execution cfg s tr s' (j : nat) :
  execution cfg s tr s' ->
  buffer (shared s) !! j = Some (NEUTRAL_VALUE cfg) ->
  (forall i d, Print_P i (Z.of_nat j) d ∉ tr) ->
  buffer (shared s') !! j = Some (NEUTRAL_VALUE cfg).
Proof.
  intros Hex Hj. induction Hex as [|tr s1 a evs s2 _ IH Hstep]; [done|].
  intros Hnot. eapply sentinel_stays; [done| |].
  - apply IH. intros i d Hin. apply (Hnot i d), elem_of_app. auto.
  - intros i d Hin. apply (Hnot i d), elem_of_app. auto.
Qed.

(** ** The argument checks of [main] *)

Lemma main_usage argv env :
  length argv <> 3%nat ->
  main argv env = ([Err_usage (default EmptyString (head argv))], Exit 1).
Proof. intros H. by destruct argv as [|? [|? [|? [|? ?]]]]. Qed.

Lemma main_invalid prog arg1 arg2 env :
  invalid_numbers arg1 arg2 = true ->
  main [prog; arg1; arg2] env = ([Err_invalid], Exit 1).
Proof. intros H. simpl. by rewrite H. Qed.

Lemma invalid_numbers_spec arg1 arg2 :
  invalid_numbers arg1 arg2 = negb (number_ok arg1 && number_ok arg2).
Proof.
  unfold invalid_numbers, number_ok.
  destruct (strtol arg1) as [l1 e1], (strtol arg2) as [l2 e2].
  by rewrite negb_andb, !negb_involutive.
Qed.

Lemma to_int_in_range x : -2147483648 <= x <= 2147483647 -> to_int x = x.
Proof. intros H. unfold to_int. rewrite Z.mod_small; lia. Qed.

(** Inside the range of [int], the test of [main] on one argument is the
    test for a positive integer. *)
Lemma number_ok_in_range arg :
  match written_value arg with
  | Some v => -2147483648 <= v <= 2147483647 -> number_ok arg = (0 <? v)
  | None => number_ok arg = false
  end.
Proof.
  unfold written_value, number_ok, strtol.
  destruct (read_sign (skip_spaces arg)) as [neg s].
  destruct (starts_with_digit s); [|by rewrite orb_true_r].
  destruct (read_digits 0 s) as [v rest].
  destruct (not_at_nul rest); [done|].
  intros Hrange. simpl.
  rewrite Z.min_r, Z.max_r by (unfold LONG_MAX, LONG_MIN; lia).
  rewrite to_int_in_range by done.
  destruct (Z.leb_spec (if neg then - v else v) 0), (Z.ltb_spec 0 (if neg then - v else v));
    simpl; (done || lia).
Qed.

Lemma number_ok_positive_integer arg :
  (forall v, written_value arg = Some v -> -2147483648 <= v <= 2147483647) ->
  number_ok arg = positive_integer arg.
Proof.
  intros Hrange. pose proof (number_ok_in_range arg) as H.
  unfold positive_integer. destruct (written_value arg); auto.
Qed.

(** * The properties of the specification *)

(** C1. Capacity invariant: in every state that the workers can reach from
    the empty buffer, whatever their number and their interleaving, the
    number of live items is between 0 and the capacity 10. *)
Theorem C1_capacity_invariant np nc s :
  reachable source_config np nc s ->
  0 <= current_items_num (shared s) <= 10.
Proof.
  intros Hreach.
  destruct (reachable_inv _ _ _ _ source_config_ok Hreach) as [[] _].
  simpl in *. lia.
Qed.

Lemma C1_capacity_invariant_witness :
  reachable source_config 1 1 full_ring
  /\ 0 <= current_items_num (shared full_ring) <= 10.
Proof.
  split; [apply outcome_reachable|].
  apply (C1_capacity_invariant 1 1). apply outcome_reachable.
Defined.

(** C2. Conservation at completion: when every producer and every consumer
    has left its loop, 100 items have been produced, 100 consumed, and the
    buffer holds no live item. *)
Theorem C2_conservation np nc s :
  (0 < np)%nat -> (0 < nc)%nat ->
  reachable source_config np nc s -> all_done s = true ->
  produced_items (shared s) = 100
  /\ consumed_items (shared s) = 100
  /\ current_items_num (shared s) = 0.
Proof.
  intros Hnp Hnc Hreach Hdone.
  destruct (reachable_inv _ _ _ _ source_config_ok Hreach) as [[] _].
  destruct Hreach as [tr Hex].
  destruct (completed_counters _ _ _ _ _ source_config_ok Hnp Hnc Hex Hdone).
  simpl in *. lia.
Qed.

Lemma C2_conservation_witness :
  let s := (outcome_of source_config 1 1 (lockstep_schedule 100)).2 in
  reachable source_config 1 1 s /\ all_done s = true
  /\ produced_items (shared s) = 100
  /\ consumed_items (shared s) = 100
  /\ current_items_num (shared s) = 0.
Proof.
  intros s. split; [apply outcome_reachable|].
  split; [by vm_compute|].
  apply (C2_conservation 1 1 s); [lia | lia | apply outcome_reachable | by vm_compute].
Defined.

(** C5. No overwrite without read: whenever a producer stores a value into
    a slot (the step that prints "P...: buffer[idx] = d"), fewer than 10
    items are live; the slot is the one at the write cursor, it held the
    neutral value, and it holds the new value afterwards. *)
Theorem C5_no_overwrite np nc s a evs s' i idx d :
  reachable source_config np nc s ->
  step source_config a s = Some (evs, s') ->
  Print_P i idx d ∈ evs ->
  current_items_num (shared s) < 10
  /\ idx = in_ (shared s)
  /\ buffer (shared s) !! Z.to_nat idx = Some 0
  /\ buffer (shared s') !! Z.to_nat idx = Some d.
Proof.
  intros Hreach Hstep Hin.
  apply (write_needs_room source_config np nc s a evs s' i idx d
           source_config_ok Hreach Hstep Hin).
Qed.

Lemma C5_no_overwrite_witness :
  let s := full_but_one in
  let o := after source_config (Run 0 0 0) s in
  reachable source_config 1 1 s
  /\ step source_config (Run 0 0 0) s = Some (o.1, o.2)
  /\ Print_P 1 9 7 ∈ o.1
  /\ current_items_num (shared s) < 10
  /\ 9 = in_ (shared s)
  /\ buffer (shared s) !! Z.to_nat 9 = Some 0
  /\ buffer (shared o.2) !! Z.to_nat 9 = Some 7.
Proof.
  intros s o.
  assert (reachable source_config 1 1 s) as Hreach by apply outcome_reachable.
  assert (step source_config (Run 0 0 0) s = Some (o.1, o.2)) as Hstep
    by (by vm_compute).
  assert (Print_P 1 9 7 ∈ o.1) as Hin by (vm_compute; left).
  split; [done|]. split; [done|]. split; [done|].
  apply (C5_no_overwrite 1 1 s (Run 0 0 0) o.1 o.2 1 9 7 Hreach Hstep Hin).
Defined.

(** C6. Slot/sentinel invariant: in every reachable state a slot outside
    the occupied region of the ring holds the neutral value 0; a read (the
    step that prints "C...: buffer[idx] = d") leaves 0 in the slot it has
    read, and the slot keeps 0 for as long as no producer writes to that
    same index. *)
Theorem C6_sentinel np nc s :
  reachable source_config np nc s ->
  (forall i, 0 <= i < 10 -> occupied source_config (shared s) i = false ->
     buffer (shared s) !! Z.to_nat i = Some 0)
  /\ (forall a evs s1 i idx d,
        step source_config a s = Some (evs, s1) -> Print_C i idx d ∈ evs ->
        buffer (shared s1) !! Z.to_nat idx = Some 0
        /\ forall tr s2,
             execution source_config s1 tr s2 ->
             (forall i' d', Print_P i' idx d' ∉ tr) ->
             buffer (shared s2) !! Z.to_nat idx = Some 0).
Proof.
  intros Hreach. split.
  - destruct (reachable_inv _ _ _ _ source_config_ok Hreach) as [[] _].
    exact inv_sentinel0.
  - intros a evs s1 i idx d Hstep Hin.
    destruct (read_leaves_sentinel _ _ _ _ _ _ _ _ Hstep Hin)
      as (_ & Hidx & _ & Hs1).
    split; [exact Hs1|]. intros tr s2 Hex Hnot.
    apply (sentinel_stays_execution source_config s1 tr s2 (Z.to_nat idx) Hex Hs1).
    rewrite Z2Nat.id by done. exact Hnot.
Qed.

Lemma C6_sentinel_witness :
  reachable source_config 1 1 before_read
  /\ (forall i, 0 <= i < 10 ->
        occupied source_config (shared before_read) i = false ->
        buffer (shared before_read) !! Z.to_nat i = Some 0)
  /\ buffer (shared (after source_config (Run 1 0 0) before_read).2) !! Z.to_nat 0
     = Some 0.
Proof.
  assert (reachable source_config 1 1 before_read) as Hreach
    by apply outcome_reachable.
  destruct (C6_sentinel 1 1 before_read Hreach) as [Hout Hread].
  split; [done|]. split; [done|].
  apply (Hread (Run 1 0 0) (after source_config (Run 1 0 0) before_read).1
           (after source_config (Run 1 0 0) before_read).2 1 0 2).
  - by vm_compute.
  - vm_compute. left.
Defined.

(** C7. Target bound and no spurious operations: the two totals never
    exceed 100 and never decrease; once the target of its role is reached,
    no statement of a worker changes the buffer, the cursors or the
    counters or prints, and a worker at its guarded block goes through to
    its signal. *)
Theorem C7_targets np nc s :
  reachable source_config np nc s ->
  (produced_items (shared s) <= 100 /\ consumed_items (shared s) <= 100)
  /\ (forall a evs s',
        step source_config a s = Some (evs, s') ->
        produced_items (shared s) <= produced_items (shared s')
        /\ consumed_items (shared s) <= consumed_items (shared s'))
  /\ (forall t r w th evs s',
        threads s !! t = Some th ->
        step source_config (Run t r w) s = Some (evs, s') ->
        (kind th = Producer /\ produced_items (shared s) = 100)
        \/ (kind th = Consumer /\ consumed_items (shared s) = 100) ->
        shared s' = shared s /\ evs = [])
  /\ (forall t r w th,
        threads s !! t = Some th -> at_ th = Body ->
        (kind th = Producer /\ produced_items (shared s) = 100)
        \/ (kind th = Consumer /\ consumed_items (shared s) = 100) ->
        step source_config (Run t r w) s
        = Some ([], Sys (shared s) (mutex s)
                        (<[t := goto Signal th]> (threads s)))).
Proof.
  intros Hreach.
  destruct (reachable_inv _ _ _ _ source_config_ok Hreach) as [[] _].
  assert (forall th,
    (kind th = Producer /\ produced_items (shared s) = 100)
    \/ (kind th = Consumer /\ consumed_items (shared s) = 100) ->
    finished source_config (kind th) (shared s)) as Hfin.
  { intros th [[-> H] | [-> H]]; simpl; lia. }
  repeat split; try done.
  - by eapply step_monotone.
  - by eapply step_monotone.
  - eapply late_worker; eauto.
  - eapply late_worker; eauto.
  - intros t r w th Hl Hat Hlate. apply late_worker_passes; auto.
Qed.

Lemma C7_targets_witness :
  reachable source_config 2 1 late_producer
  /\ (after source_config (Run 1 0 0) late_producer).1 = []
  /\ shared (after source_config (Run 1 0 0) late_producer).2
     = shared late_producer.
Proof.
  assert (reachable source_config 2 1 late_producer) as Hreach
    by apply outcome_reachable.
  split; [done|].
  destruct (C7_targets 2 1 late_producer Hreach) as (_ & _ & Hlate & _).
  destruct (Hlate 1%nat 0 0%nat
              {| kind := Producer; thread_i := 2; at_ := Body; data := 4 |}
              (after source_config (Run 1 0 0) late_producer).1
              (after source_config (Run 1 0 0) late_producer).2) as [Hsh Hevs].
  - by vm_compute.
  - by vm_compute.
  - left. by vm_compute.
  - by split.
Defined.

(** C8. Scenario with capacity 3, target 5, one producer and one consumer:
    in every run that ends, the five writes go to slots 0,1,2,0,1, the five
    reads to slots 0,1,2,0,1, the values are read in the order in which
    they were written, the buffer ends with the neutral value in every
    slot, and both totals are 5. *)
Theorem C8_small_ring tr s :
  execution small_config (init small_config 1 1) tr s ->
  all_done s = true ->
  (puts tr).*1 = [0; 1; 2; 0; 1]
  /\ (gets tr).*1 = [0; 1; 2; 0; 1]
  /\ (gets tr).*2 = (puts tr).*2
  /\ buffer (shared s) = [0; 0; 0]
  /\ produced_items (shared s) = 5
  /\ consumed_items (shared s) = 5.
Proof.
  intros Hex Hdone.
  pose proof small_config_ok as Hcfg.
  destruct (completed_counters _ 1 1 _ _ Hcfg ltac:(lia) ltac:(lia) Hex Hdone)
    as [Hp Hc]. simpl in Hp, Hc.
  destruct (execution_inv _ _ _ _ Hcfg (init_inv _ 1 1 Hcfg) Hex) as [[] _].
  destruct (execution_trace_inv _ _ _ _ _ Hcfg Hex) as [].
  assert (gets tr = puts tr) as Hfifo.
  { apply prefix_length_eq; [done|]. lia. }
  assert ((puts tr).*1 = [0; 1; 2; 0; 1]) as Hputs.
  { revert tr_puts_length0 tr_puts_index0. generalize (puts tr).
    intros [|p0 [|p1 [|p2 [|p3 [|p4 [|p5 l]]]]]] Hlen Hidx;
      simpl in Hlen; try lia. simpl.
    rewrite (Hidx 0%nat p0), (Hidx 1%nat p1), (Hidx 2%nat p2),
      (Hidx 3%nat p3), (Hidx 4%nat p4) by done. reflexivity. }
  assert (buffer (shared s) = [0; 0; 0]) as Hbuf.
  { assert (forall i, 0 <= i < 3 -> buffer (shared s) !! Z.to_nat i = Some 0) as Hall.
    { intros i Hi. apply inv_sentinel0; [done|]. unfold occupied.
      apply Z.ltb_ge. pose proof (Z.mod_pos_bound (i - out (shared s)) 3). simpl. lia. }
    destruct (buffer (shared s)) as [|b0 [|b1 [|b2 [|b3 l]]]]; try done.
    pose proof (Hall 0 ltac:(lia)). pose proof (Hall 1 ltac:(lia)).
    pose proof (Hall 2 ltac:(lia)). by simplify_eq/=. }
  rewrite Hfifo. auto 10.
Qed.

Lemma C8_small_ring_witness :
  let o := outcome_of small_config 1 1 small_schedule in
  execution small_config (init small_config 1 1) o.1 o.2
  /\ all_done o.2 = true
  /\ (puts o.1).*1 = [0; 1; 2; 0; 1]
  /\ (gets o.1).*1 = [0; 1; 2; 0; 1]
  /\ (gets o.1).*2 = (puts o.1).*2
  /\ buffer (shared o.2) = [0; 0; 0]
  /\ produced_items (shared o.2) = 5
  /\ consumed_items (shared o.2) = 5.
Proof.
  intros o. split; [apply outcome_execution|]. split; [by vm_compute|].
  apply (C8_small_ring o.1 o.2); [apply outcome_execution | by vm_compute].
Defined.

(** C9. Progress / no deadlock: the specification asks that every run end
    with both totals at the target and no worker blocked for ever on a
    condition wait.  The code does not meet the second part.  With one
    producer and two consumers it has a run that reaches 100 items produced
    and 100 consumed and leaves the second consumer blocked in
    [pthread_cond_wait] on [empty]: the other two workers have returned, so
    nobody is left to signal, and no worker can run a statement (only a
    spurious wake-up, which POSIX does not promise, would release it). *)
Theorem C9_stranded_consumer :
  let s := (outcome_of source_config 1 2 stranding_schedule).2 in
  reachable source_config 1 2 s
  /\ produced_items (shared s) = 100
  /\ consumed_items (shared s) = 100
  /\ at_ <$> threads s = [Done; Done; Waiting]
  /\ forall t r w, step source_config (Run t r w) s = None.
Proof.
  intros s. split; [apply outcome_reachable|].
  remember s as s' eqn:E. unfold s in E. vm_compute in E. subst s'.
  repeat split. by intros [|[|[|t]]] r w.
Qed.

(** C10. Ring coherence: in every reachable state the number of live items
    is the difference of the two totals, the write cursor is the number of
    items produced modulo 10 and the read cursor the number consumed modulo
    10; every step keeps the three equations. *)
Theorem C10_ring_coherence np nc s :
  reachable source_config np nc s ->
  (current_items_num (shared s)
   = produced_items (shared s) - consumed_items (shared s)
   /\ in_ (shared s) = produced_items (shared s) mod 10
   /\ out (shared s) = consumed_items (shared s) mod 10)
  /\ forall a evs s',
       step source_config a s = Some (evs, s') ->
       ring_coherent source_config (shared s').
Proof.
  intros Hreach.
  destruct (reachable_inv _ _ _ _ source_config_ok Hreach) as [Hdata _].
  apply data_inv_coherent in Hdata. split; [exact Hdata|].
  intros a evs s' Hstep. by eapply step_coherent.
Qed.

Lemma C10_ring_coherence_witness :
  reachable source_config 1 1 wrapped_ring
  /\ current_items_num (shared wrapped_ring)
     = produced_items (shared wrapped_ring) - consumed_items (shared wrapped_ring)
  /\ in_ (shared wrapped_ring) = produced_items (shared wrapped_ring) mod 10
  /\ out (shared wrapped_ring) = consumed_items (shared wrapped_ring) mod 10.
Proof.
  assert (reachable source_config 1 1 wrapped_ring) as Hreach
    by apply outcome_reachable.
  split; [exact Hreach|].
  exact (proj1 (C10_ring_coherence 1 1 wrapped_ring Hreach)).
Defined.

(** C3. Initialisation failure: the specification asks for exit code 1 and
    no worker started when the mutex or a condition variable cannot be set
    up.  The code does not meet it: when [pthread_mutex_init] returns 12,
    [init_shared] reports the error and returns, and [main], which cannot
    see the failure, starts both workers and exits with code 0 when they
    have ended. *)
Theorem C3_init_failure_goes_on :
  main ["prog"; "1"; "1"]%string mutex_init_fails
  = ([Err_mutex_init 12; Started Producer 1; Started Consumer 1], Exit 0).
Proof. reflexivity. Qed.

(** C4. Argument checks: the specification asks that [main] go on exactly
    when there are two arguments and both parse completely as positive
    integers.  The code does not meet it outside the range of [int]: the
    text -4294967295 is a negative integer, it fits [long], and its
    conversion to [int] is 1, so [main] takes it for one producer and
    starts the workers. *)
Theorem C4_negative_count_accepted :
  positive_integer "-4294967295" = false
  /\ strtol "-4294967295" = (-4294967295, EmptyString)
  /\ to_int (-4294967295) = 1
  /\ main ["prog"; "-4294967295"; "1"]%string all_fine
     = ([Started Producer 1; Started Consumer 1], Exit 0).
Proof. repeat split. Qed.

(** * Further properties of the code *)

(** ** The view of one statement *)

Lemma waits_goto k p th : waits k (goto p th) = role_eqb (kind th) k && pc_eqb p Waiting.
Proof. reflexivity. Qed.

Lemma cond_signal_view k w ths ths' :
  cond_signal k w ths = Some ths' ->
  (ths' = ths /\ forall u thu, ths !! u = Some thu -> waits k thu = false)
  \/ (exists thw, ths !! w = Some thw /\ waits k thw = true
                  /\ ths' = <[w := goto Woken thw]> ths).
Proof.
  unfold cond_signal. intros H.
  assert (existsb (waits k) ths = false ->
          forall u thu, ths !! u = Some thu -> waits k thu = false) as Hnone.
  { intros Hex u thu Hu. destruct (waits k thu) eqn:Hw; [|done].
    rewrite <- Hex. symmetry. apply existsb_exists. exists thu.
    split; [|done]. apply list_elem_of_In. by eapply list_elem_of_lookup_2. }
  destruct (ths !! w) as [thw|] eqn:Hw.
  - destruct (waits k thw) eqn:Hwait.
    + injection H as <-. right. eauto.
    + destruct (existsb (waits k) ths) eqn:Hex; [done|].
      injection H as <-. left. split; [done | by apply Hnone].
  - destruct (existsb (waits k) ths) eqn:Hex; [done|].
    injection H as <-. left. split; [done | by apply Hnone].
Qed.

Lemma moved_lookup (ths : list thread) t th th' :
  ths !! t = Some th ->
  <[t := th']> ths !! t = Some th'
  /\ forall u, u <> t -> <[t := th']> ths !! u = ths !! u.
Proof.
  intros Hl. split.
  - apply list_lookup_insert_eq. by eapply lookup_lt_Some.
  - intros u Hu. by apply list_lookup_insert_ne.
Qed.

Lemma signal_lookup k w (ths : list thread) t th ths' :
  ths !! t = Some th -> at_ th = Signal ->
  cond_signal k w (<[t := goto Unlock th]> ths) = Some ths' ->
  ths' !! t = Some (goto Unlock th)
  /\ (forall u, u <> t ->
        ths' !! u = ths !! u
        \/ exists thu, ths !! u = Some thu /\ waits k thu = true
                       /\ ths' !! u = Some (goto Woken thu))
  /\ ((exists u thu, ths !! u = Some thu /\ waits k thu = true
                     /\ ths' !! u = Some (goto Woken thu))
      \/ forall u thu, ths !! u = Some thu -> waits k thu = false).
Proof.
  intros Hl Hat Hs.
  destruct (moved_lookup ths t th (goto Unlock th) Hl) as [Ht Hothers].
  assert (waits k th = false) as Hth.
  { unfold waits. rewrite Hat. simpl. apply andb_false_r. }
  apply cond_signal_view in Hs as [[-> Hnone] | (thw & Hw & Hwaits & ->)].
  - split; [done|]. split; [intros u Hu; left; auto|]. right.
    intros u thu Hu. destruct (decide (u = t)) as [-> | Hne].
    + by simplify_eq.
    + apply (Hnone u). by rewrite Hothers.
  - assert (w <> t) as Hwt.
    { intros ->. rewrite Ht in Hw. injection Hw as <-.
      rewrite waits_goto in Hwaits. simpl in Hwaits.
      by rewrite andb_false_r in Hwaits. }
    rewrite Hothers in Hw by done.
    assert (<[w := goto Woken thw]> (<[t := goto Unlock th]> ths) !! w
            = Some (goto Woken thw)) as Hwoken.
    { apply list_lookup_insert_eq. rewrite length_insert. by eapply lookup_lt_Some. }
    split; [by rewrite list_lookup_insert_ne|]. split; [|left; eauto].
    intros u Hu. destruct (decide (u = w)) as [-> | Hne].
    + right. eauto.
    + left. rewrite list_lookup_insert_ne by done. auto.
Qed.

Lemma step_thread_view cfg t r w s evs s' :
  step_thread cfg t r w s = Some (evs, s') ->
  exists th th',
    threads s !! t = Some th /\ threads s' !! t = Some th'
    /\ ident th' = ident th
    /\ hop cfg t (kind th) (thread_i th) (at_ th) (data th) (mutex s) (shared s)
         evs (at_ th') (data th') (mutex s') (shared s')
    /\ (forall u, u <> t ->
          threads s' !! u = threads s !! u
          \/ (at_ th = Signal
              /\ exists thu, threads s !! u = Some thu
                   /\ waits (other (kind th)) thu = true
                   /\ threads s' !! u = Some (goto Woken thu)))
    /\ (at_ th = Signal ->
          (exists u thu, threads s !! u = Some thu
             /\ waits (other (kind th)) thu = true
             /\ threads s' !! u = Some (goto Woken thu))
          \/ forall u thu, threads s !! u = Some thu ->
               waits (other (kind th)) thu = false).
Proof.
  unfold step_thread. destruct (threads s !! t) as [th|] eqn:Hth; [|done].
  assert (forall p k th' m' sh',
    s' = Sys sh' m' (<[t := th']> (threads s)) ->
    at_ th = p -> kind th = k -> p <> Signal -> ident th' = ident th ->
    hop cfg t k (thread_i th) p (data th) (mutex s) (shared s)
      evs (at_ th') (data th') m' sh' ->
    exists th0 th',
      Some th = Some th0 /\ threads s' !! t = Some th' /\ ident th' = ident th0
      /\ hop cfg t (kind th0) (thread_i th0) (at_ th0) (data th0) (mutex s)
           (shared s) evs (at_ th') (data th') (mutex s') (shared s')
      /\ (forall u, u <> t ->
            threads s' !! u = threads s !! u
            \/ (at_ th0 = Signal
                /\ exists thu, threads s !! u = Some thu
                     /\ waits (other (kind th0)) thu = true
                     /\ threads s' !! u = Some (goto Woken thu)))
      /\ (at_ th0 = Signal ->
            (exists u thu, threads s !! u = Some thu
               /\ waits (other (kind th0)) thu = true
               /\ threads s' !! u = Some (goto Woken thu))
            \/ forall u thu, threads s !! u = Some thu ->
                 waits (other (kind th0)) thu = false)) as Hplain.
  { intros p k th' m' sh' -> Hp Hk Hns Hid Hhop. exists th, th'. simpl.
    destruct (moved_lookup (threads s) t th th' Hth) as [Ht Hothers].
    rewrite Hp, Hk. repeat split; auto; try done. }
  destruct (at_ th) eqn:Hat, (kind th) eqn:Hk; try done.
  - (* While, producer *)
    destruct (Z.ltb_spec (produced_items (shared s)) (items_to_produce cfg));
      intros [= <- <-]; (eapply (Hplain _ _ _ _ _ eq_refl eq_refl eq_refl); [done..|]); simpl; auto 10.
  - (* While, consumer *)
    destruct (Z.ltb_spec (consumed_items (shared s)) (items_to_consume cfg));
      intros [= <- <-]; (eapply (Hplain _ _ _ _ _ eq_refl eq_refl eq_refl); [done..|]); simpl; auto 10.
  - (* Rand *)
    destruct (Z.leb_spec 0 r); [|done]. simpl.
    destruct (Z.leb_spec r RAND_MAX); [|done].
    intros [= <- <-]. (eapply (Hplain _ _ _ _ _ eq_refl eq_refl eq_refl); [done..|]). simpl.
    pose proof (Z.rem_bound_pos r 99). repeat split; lia.
  - (* Lock, producer *)
    destruct (mutex s) eqn:Hm; [done|]. intros [= <- <-].
    (eapply (Hplain _ _ _ _ _ eq_refl eq_refl eq_refl); [done..|]). by simpl.
  - (* Lock, consumer *)
    destruct (mutex s) eqn:Hm; [done|]. intros [= <- <-].
    (eapply (Hplain _ _ _ _ _ eq_refl eq_refl eq_refl); [done..|]). by simpl.
  - (* Test, producer *)
    destruct (Z.eqb_spec (current_items_num (shared s)) (BUFFER_SIZE cfg));
      intros [= <- <-]; (eapply (Hplain _ _ _ _ _ eq_refl eq_refl eq_refl); [done..|]); simpl; auto 10.
  - (* Test, consumer *)
    destruct (_ && _) eqn:Htest; intros [= <- <-];
      (eapply (Hplain _ _ _ _ _ eq_refl eq_refl eq_refl); [done..|]); simpl.
    + apply andb_true_iff in Htest as [H0 Hc%negb_true_iff].
      apply Z.eqb_eq in H0. apply Z.eqb_neq in Hc. auto 10.
    + apply ready_consumer in Htest. auto 10.
  - (* Woken, producer *)
    destruct (mutex s) eqn:Hm; [done|]. intros [= <- <-].
    (eapply (Hplain _ _ _ _ _ eq_refl eq_refl eq_refl); [done..|]). by simpl.
  - (* Woken, consumer *)
    destruct (mutex s) eqn:Hm; [done|]. intros [= <- <-].
    (eapply (Hplain _ _ _ _ _ eq_refl eq_refl eq_refl); [done..|]). by simpl.
  - (* Body, producer *)
    destruct (produce _ _ _ _) as [[evs' sh]|] eqn:Hp; [|done].
    intros [= <- <-]. (eapply (Hplain _ _ _ _ _ eq_refl eq_refl eq_refl); [done..|]). by simpl.
  - (* Body, consumer *)
    destruct (consume _ _ _ _) as [[[evs' d] sh]|] eqn:Hc; [|done].
    intros [= <- <-]. (eapply (Hplain _ _ _ _ _ eq_refl eq_refl eq_refl); [done..|]). by simpl.
  - (* Signal, producer *)
    destruct (cond_signal _ _ _) as [ths|] eqn:Hs; [|done].
    intros [= <- <-]. simpl.
    destruct (signal_lookup _ _ _ _ _ _ Hth Hat Hs) as (Ht & Hothers & Hwake).
    exists th, (goto Unlock th). rewrite Hat, Hk. simpl.
    repeat split; auto. intros u Hu. destruct (Hothers u Hu); auto.
  - (* Signal, consumer *)
    destruct (cond_signal _ _ _) as [ths|] eqn:Hs; [|done].
    intros [= <- <-]. simpl.
    destruct (signal_lookup _ _ _ _ _ _ Hth Hat Hs) as (Ht & Hothers & Hwake).
    exists th, (goto Unlock th). rewrite Hat, Hk. simpl.
    repeat split; auto. intros u Hu. destruct (Hothers u Hu); auto.
  - (* Unlock, producer *)
    intros [= <- <-]. (eapply (Hplain _ _ _ _ _ eq_refl eq_refl eq_refl); [done..|]). by simpl.
  - (* Unlock, consumer *)
    intros [= <- <-]. (eapply (Hplain _ _ _ _ _ eq_refl eq_refl eq_refl); [done..|]). by simpl.
Qed.

(** What a statement does, by the program point it starts from. *)

Ltac break_hop :=
  repeat match goal with
         | H : _ /\ _ |- _ => destruct H
         | H : _ \/ _ |- _ => destruct H
         end; subst; simpl in *.

Lemma hop_shared cfg t k i p d m sh evs p' d' m' sh' :
  hop cfg t k i p d m sh evs p' d' m' sh' ->
  (p = Body /\ p' = Signal) \/ (p <> Body /\ sh' = sh /\ evs = []).
Proof.
  destruct p; simpl; intros H; try contradiction; break_hop;
    first [ left; split; reflexivity
          | right; split; [discriminate | split; reflexivity] ].
Qed.

Lemma hop_rest cfg t k i p d m sh evs p' d' m' sh' :
  hop cfg t k i p d m sh evs p' d' m' sh' -> p <> Body ->
  (p' <> Waiting /\ p' <> Done)
  \/ (p' = Waiting /\ current_items_num sh = limit cfg k)
  \/ (p' = Done /\ finished cfg k sh).
Proof.
  destruct p, k; simpl; intros H Hb; try contradiction; break_hop;
    first [ left; split; discriminate
          | right; left; split; [reflexivity | assumption]
          | right; right; split; [reflexivity | assumption] ].
Qed.

Lemma hop_mutex cfg t k i p d m sh evs p' d' m' sh' :
  hop cfg t k i p d m sh evs p' d' m' sh' ->
  (m = None /\ m' = Some t /\ holds_mutex p' = true)
  \/ m' = None
  \/ (m' = m /\ (holds_mutex p = true -> holds_mutex p' = true)).
Proof.
  destruct p; simpl; intros H; try contradiction; break_hop;
    first [ left; repeat split; reflexivity
          | right; left; reflexivity
          | right; right; split;
            [reflexivity | intros Hh; simpl in *; (reflexivity || discriminate)] ].
Qed.

Lemma awake_spec th :
  awake th = true <-> at_ th <> Waiting /\ at_ th <> Done.
Proof. unfold awake. destruct (at_ th); simpl; split; intros H; try done; by destruct H. Qed.

Lemma waits_spec k th :
  waits k th = true <-> kind th = k /\ at_ th = Waiting.
Proof.
  unfold waits. destruct (kind th), k, (at_ th); simpl; split; intros H;
    try done; by destruct H.
Qed.

Lemma other_other k : other (other k) = k.
Proof. by destruct k. Qed.

Lemma other_ne k : other k <> k.
Proof. by destruct k. Qed.

(** A worker that is not blocked is left alone by the statements of the
    other workers. *)
Lemma step_thread_other cfg t r w s evs s' u thu :
  step_thread cfg t r w s = Some (evs, s') ->
  threads s !! u = Some thu -> u <> t -> at_ thu <> Waiting ->
  threads s' !! u = Some thu.
Proof.
  intros Hstep Hu Hne Hnw.
  destruct (step_thread_view _ _ _ _ _ _ _ Hstep)
    as (th & th' & _ & _ & _ & _ & Hothers & _).
  destruct (Hothers u Hne) as [-> | (_ & thu' & Hu' & Hw & _)]; [done|].
  rewrite Hu in Hu'. injection Hu' as <-. apply waits_spec in Hw as [_ Hw]. done.
Qed.

(** ** The mutex has an owner, and somebody is always on the way *)

Lemma holds_not_waiting p : holds_mutex p = true -> p <> Waiting.
Proof. by destruct p. Qed.

Lemma spurious_view cfg t s evs s' :
  step cfg (Spurious t) s = Some (evs, s') ->
  exists th, threads s !! t = Some th /\ at_ th = Waiting
    /\ evs = [] /\ shared s' = shared s /\ mutex s' = mutex s
    /\ threads s' = <[t := goto Woken th]> (threads s).
Proof.
  simpl. destruct (threads s !! t) as [th|] eqn:Hth; [|done].
  destruct (pc_eqb (at_ th) Waiting) eqn:Hat; [|done].
  intros [= <- <-]. exists th. apply pc_eqb_eq in Hat. auto 10.
Qed.

Lemma spurious_other cfg t s evs s' u thu :
  step cfg (Spurious t) s = Some (evs, s') ->
  threads s !! u = Some thu -> at_ thu <> Waiting ->
  threads s' !! u = Some thu.
Proof.
  intros Hstep Hu Hnw.
  apply spurious_view in Hstep as (th & Hth & Hat & _ & _ & _ & ->).
  rewrite list_lookup_insert_ne; [done|]. intros ->. congruence.
Qed.

Lemma step_owned cfg a s evs s' :
  owned s -> step cfg a s = Some (evs, s') -> owned s'.
Proof.
  intros Hown Hstep t0 Hm. destruct a as [t r w | t].
  - destruct (step_thread_view _ _ _ _ _ _ _ Hstep)
      as (th & th' & Hth & Hth' & _ & Hhop & _).
    destruct (hop_mutex _ _ _ _ _ _ _ _ _ _ _ _ _ Hhop)
      as [(_ & Hm' & Hholds) | [Hm' | [Hm' Hholds]]].
    + rewrite Hm' in Hm. injection Hm as <-. eauto.
    + congruence.
    + rewrite Hm' in Hm. destruct (Hown t0 Hm) as (th0 & Hth0 & Hh0).
      destruct (decide (t0 = t)) as [-> | Hne].
      * exists th'. split; [done|]. apply Hholds. congruence.
      * exists th0. split; [|done].
        eapply step_thread_other; eauto using holds_not_waiting.
  - pose proof (spurious_view _ _ _ _ _ Hstep) as (_ & _ & _ & _ & _ & Hm' & _).
    rewrite Hm' in Hm. destruct (Hown t0 Hm) as (th0 & Hth0 & Hh0).
    exists th0. split; [|done].
    eapply spurious_other; eauto using holds_not_waiting.
Qed.

Lemma step_served cfg k a s evs s' :
  invariant cfg s ->
  (exists v thv, threads s !! v = Some thv /\ kind thv = k) ->
  served cfg k s -> step cfg a s = Some (evs, s') -> served cfg k s'.
Proof.
  intros [_ Hths] (v & thv & Hv & Hkv) Hserved Hstep.
  destruct a as [t r w | t].
  - destruct (step_thread_view _ _ _ _ _ _ _ Hstep)
      as (th & th' & Hth & Hth' & Hid & Hhop & Hothers & Hsignal).
    injection Hid as Hkind _.
    destruct (hop_shared _ _ _ _ _ _ _ _ _ _ _ _ _ Hhop)
      as [[Hbody Hsig] | (Hnb & Hsh & _)].
    { (* the guarded block: its worker is at the signal afterwards *)
      destruct (decide (kind th = k)) as [Hk | Hk].
      - right; right; left. exists t, th'. split; [done|]. split; [congruence|].
        apply awake_spec. rewrite Hsig. done.
      - right; right; right. exists t, th'. split; [done|]. split; [|done].
        rewrite Hkind. by destruct (kind th), k. }
    unfold served. rewrite Hsh.
    destruct Hserved as [Hlim | [Hfin | [(u & thu & Hu & Hku & Haw)
                                        | (u & thu & Hu & Hku & Hat)]]]; auto.
    + (* an awake worker of role [k] *)
      apply awake_spec in Haw as [Hnw Hnd].
      destruct (decide (u = t)) as [-> | Hne].
      * assert (thu = th) as -> by congruence. rewrite Hku in Hhop.
        destruct (hop_rest _ _ _ _ _ _ _ _ _ _ _ _ _ Hhop Hnb)
          as [Haw' | [[_ Hlim] | [_ Hfin]]]; auto.
        right; right; left. exists t, th'. split; [done|].
        split; [congruence|]. by apply awake_spec.
      * right; right; left. exists u, thu.
        split; [by eapply step_thread_other|]. split; [done|].
        by apply awake_spec.
    + (* a worker of the other role at its signal *)
      destruct (decide (u = t)) as [-> | Hne].
      * assert (thu = th) as -> by congruence.
        rewrite Hku, other_other in Hsignal.
        destruct (Hsignal Hat) as [(x & thx & Hx & Hwx & Hx') | Hnone].
        -- right; right; left. exists x, (goto Woken thx). split; [done|].
           apply waits_spec in Hwx as [Hkx _]. split; [done|]. reflexivity.
        -- assert (at_ thv <> Waiting) as Hnw.
           { intros Hw. specialize (Hnone v thv Hv).
             assert (waits k thv = true) by (by apply waits_spec). congruence. }
           assert (v <> t) as Hvt.
           { intros ->. assert (thv = th) as -> by congruence.
             rewrite Hku in Hkv. by eapply other_ne. }
           assert (threads s' !! v = Some thv) as Hv'
             by (by eapply step_thread_other).
           destruct (decide (at_ thv = Done)) as [Hd | Hd].
           ++ right; left. destruct (Hths _ _ Hv) as (_ & _ & Hfin).
              rewrite Hkv in Hfin. auto.
           ++ right; right; left. exists v, thv. split; [done|].
              split; [done|]. by apply awake_spec.
      * right; right; right. exists u, thu.
        split; [|done]. eapply step_thread_other; eauto. congruence.
  - pose proof (spurious_view _ _ _ _ _ Hstep) as (_ & _ & _ & _ & Hsh & _).
    unfold served. rewrite Hsh.
    destruct Hserved as [Hlim | [Hfin | [(u & thu & Hu & Hku & Haw)
                                        | (u & thu & Hu & Hku & Hat)]]]; auto.
    + right; right; left. exists u, thu. apply awake_spec in Haw as Haw'.
      split; [|done]. eapply spurious_other; eauto. tauto.
    + right; right; right. exists u, thu.
      split; [|done]. eapply spurious_other; eauto. congruence.
Qed.

Lemma init_at_while cfg np nc t th :
  threads (init cfg np nc) !! t = Some th -> at_ th = While /\ data th = 0.
Proof.
  simpl. intros Hl.
  apply lookup_app_Some in Hl as [Hl | [_ Hl]];
    apply list_lookup_fmap_Some_1 in Hl as (? & -> & _); done.
Qed.

Lemma execution_has_roles cfg np nc tr s :
  (0 < np)%nat -> (0 < nc)%nat ->
  execution cfg (init cfg np nc) tr s ->
  forall k, exists v thv, threads s !! v = Some thv /\ kind thv = k.
Proof.
  intros Hnp Hnc Hex [|].
  - destruct (has_role _ _ _ _ _ _ _ Hex (init_has_producer cfg np nc Hnp))
      as (th & ? & ?); eauto.
  - destruct (has_role _ _ _ _ _ _ _ Hex (init_has_consumer cfg np nc Hnc))
      as (th & ? & ?); eauto.
Qed.

Lemma init_live_inv cfg np nc :
  (0 < np)%nat -> (0 < nc)%nat -> live_inv cfg (init cfg np nc).
Proof.
  intros Hnp Hnc.
  assert (forall k, served cfg k (init cfg np nc)) as Hserved.
  { intros k.
    destruct (execution_has_roles cfg np nc [] _ Hnp Hnc
                (execution_nil cfg _) k) as (v & thv & Hv & Hk).
    right; right; left. exists v, thv. split; [done|]. split; [done|].
    apply awake_spec. destruct (init_at_while _ _ _ _ _ Hv) as [-> _]. done. }
  split; [|apply Hserved..]. intros t Hm. done.
Qed.

Lemma execution_live_inv cfg np nc tr s :
  config_ok cfg -> (0 < np)%nat -> (0 < nc)%nat ->
  execution cfg (init cfg np nc) tr s -> live_inv cfg s.
Proof.
  intros Hcfg Hnp Hnc. induction 1 as [|tr s a evs s' Hex IH Hstep].
  - by apply init_live_inv.
  - destruct IH as [Hown Hp Hc].
    assert (invariant cfg s) as Hinv by eauto using execution_inv, init_inv.
    pose proof (execution_has_roles _ _ _ _ _ Hnp Hnc Hex) as Hroles.
    split; eauto using step_owned, step_served.
Qed.

(** ** Occupied slots hold item values *)

Lemma ring_shift_inj n i j o :
  0 < n -> 0 <= i < n -> 0 <= j < n ->
  (i - o) mod n = (j - o) mod n -> i = j.
Proof.
  intros Hn Hi Hj E. apply (ring_same n); [done..|].
  replace (i - j) with ((i - o) - (j - o)) by lia.
  rewrite Zminus_mod, E, Z.sub_diag. by apply Z.mod_0_l, not_eq_sym, Z.lt_neq.
Qed.

Lemma ring_behind n o :
  0 < n -> 0 <= o < n -> (o - Z.rem (o + 1) n) mod n = n - 1.
Proof.
  intros Hn Ho. rewrite Z.rem_mod_nonneg by lia.
  rewrite Zminus_mod_idemp_r.
  replace (o - (o + 1)) with (-1) by lia.
  rewrite mod_wrap_neg by lia. lia.
Qed.

Lemma produce_slots cfg i d s evs s' :
  config_ok cfg -> data_inv cfg s -> ready cfg Producer s ->
  item_value d -> slots_ok cfg s ->
  produce cfg i d s = Some (evs, s') -> slots_ok cfg s'.
Proof.
  intros [Hn _ _] Hinv Hready Hd Hslots. pose proof Hinv as [].
  simpl in Hready. unfold produce.
  destruct (Z.ltb_spec (produced_items s) (items_to_produce cfg));
    [|by intros [= <- <-]].
  destruct (in_bounds cfg (in_ s)) eqn:Hb; [|done].
  apply in_bounds_spec in Hb. intros [= <- <-] j Hj Hocc.
  unfold occupied in Hocc. simpl in *. apply Z.ltb_lt in Hocc.
  assert ((in_ s - out s) mod BUFFER_SIZE cfg = current_items_num s) as Hdist.
  { rewrite inv_in0, inv_out0, ring_distance, <- inv_count0.
    apply Z.mod_small. lia. }
  destruct (decide (j = in_ s)) as [-> | Hne].
  - exists d. split; [|done]. apply list_lookup_insert_eq. lia.
  - rewrite list_lookup_insert_ne by (intros E; apply Z2Nat.inj in E; lia).
    apply Hslots; [done|]. unfold occupied. apply Z.ltb_lt.
    assert ((j - out s) mod BUFFER_SIZE cfg <> current_items_num s).
    { rewrite <- Hdist. intros E. apply Hne. by eapply ring_shift_inj. }
    lia.
Qed.

Lemma consume_slots cfg i d0 s evs d s' :
  config_ok cfg -> data_inv cfg s -> slots_ok cfg s ->
  consume cfg i d0 s = Some (evs, d, s') -> slots_ok cfg s'.
Proof.
  intros [Hn _ _] Hinv Hslots. pose proof Hinv as []. unfold consume.
  destruct (Z.ltb_spec (consumed_items s) (items_to_consume cfg));
    [|by intros [= <- <- <-]].
  destruct (in_bounds cfg (out s)) eqn:Hb; [|done].
  apply in_bounds_spec in Hb.
  destruct (buffer s !! Z.to_nat (out s)) as [v|] eqn:Hv; [|done].
  intros [= <- <- <-] j Hj Hocc.
  unfold occupied in Hocc. simpl in *. apply Z.ltb_lt in Hocc.
  destruct (decide (j = out s)) as [-> | Hne].
  - rewrite ring_behind in Hocc by done. lia.
  - rewrite list_lookup_insert_ne by (intros E; apply Z2Nat.inj in E; lia).
    rewrite ring_next in Hocc by done.
    apply Hslots; [done|]. unfold occupied. apply Z.ltb_lt. lia.
Qed.

(** What a consumer reads is an item value, never the neutral value of an
    empty slot. *)
Lemma consume_reads_item cfg i d0 s evs d s' idx j :
  config_ok cfg -> data_inv cfg s -> ready cfg Consumer s -> slots_ok cfg s ->
  consume cfg i d0 s = Some (evs, d, s') -> Print_C j idx d ∈ evs ->
  item_value d.
Proof.
  intros [Hn _ _] [] Hready Hslots Hc Hin. simpl in Hready.
  apply consume_events in Hc as [(_ & -> & _) | (Hlt & Hb & Hv & -> & _)];
    in_output Hin.
  destruct (Hslots (out s) Hb) as (v & Hv' & Hitem); [|congruence].
  unfold occupied. apply Z.ltb_lt. rewrite Z.sub_diag, Z.mod_0_l; lia.
Qed.

Lemma hop_rand cfg t k i p d m sh evs p' d' m' sh' :
  hop cfg t k i p d m sh evs p' d' m' sh' -> p' = Rand -> k = Producer.
Proof.
  destruct p, k; simpl; intros H Hp; try contradiction; break_hop;
    (reflexivity || discriminate).
Qed.

Lemma hop_value cfg t i p d m sh evs p' d' m' sh' :
  hop cfg t Producer i p d m sh evs p' d' m' sh' ->
  carries_item p' = true ->
  (carries_item p = true -> item_value d) -> item_value d'.
Proof.
  destruct p; simpl; intros H Hc Hd; try contradiction; break_hop;
    first [ discriminate | by apply Hd | done ].
Qed.

Lemma init_value_inv cfg np nc : value_inv cfg (init cfg np nc).
Proof.
  split.
  - intros t th Hl. destruct (init_at_while _ _ _ _ _ Hl) as [-> _]. done.
  - intros t th Hl _. destruct (init_at_while _ _ _ _ _ Hl) as [-> _]. done.
  - intros i Hi Hocc. unfold occupied in Hocc. simpl in Hocc.
    apply Z.ltb_lt in Hocc.
    destruct (Z.eq_dec (BUFFER_SIZE cfg) 0) as [E | E]; [lia|].
    pose proof (Z.mod_pos_bound (i - 0) (BUFFER_SIZE cfg)). lia.
Qed.

Lemma step_value_inv cfg a s evs s' :
  config_ok cfg -> invariant cfg s -> value_inv cfg s ->
  step cfg a s = Some (evs, s') -> value_inv cfg s'.
Proof.
  intros Hcfg [Hdata Hths] [Hrand Hval Hslots] Hstep.
  destruct a as [t r w | t].
  - destruct (step_thread_view _ _ _ _ _ _ _ Hstep)
      as (th & th' & Hth & Hth' & Hid & Hhop & Hothers & _).
    injection Hid as Hkind _.
    assert (forall u thu', threads s' !! u = Some thu' -> u <> t ->
              threads s !! u = Some thu'
              \/ exists thu, threads s !! u = Some thu /\ at_ thu = Waiting
                             /\ thu' = goto Woken thu) as Hrest.
    { intros u thu' Hu Hne.
      destruct (Hothers u Hne) as [E | (_ & thu & Hu0 & Hw & Hu')].
      - left. congruence.
      - right. exists thu. apply waits_spec in Hw as [_ Hw].
        split; [done|]. split; [done|]. congruence. }
    split.
    + intros u thu' Hu Hat. destruct (decide (u = t)) as [-> | Hne].
      * assert (thu' = th') as -> by congruence. rewrite Hkind.
        by eapply hop_rand.
      * destruct (Hrest u thu' Hu Hne) as [Hu0 | (thu & Hu0 & _ & ->)]; eauto.
        done.
    + intros u thu' Hu Hk Hc. destruct (decide (u = t)) as [-> | Hne].
      * assert (thu' = th') as -> by congruence.
        rewrite Hkind in Hk. rewrite Hk in Hhop.
        eapply hop_value; [done..|]. eauto.
      * destruct (Hrest u thu' Hu Hne) as [Hu0 | (thu & Hu0 & Hw & ->)]; eauto.
        simpl. apply (Hval u thu Hu0 Hk). by rewrite Hw.
    + destruct (Hths _ _ Hth) as (_ & Hready & _).
      destruct (hop_shared _ _ _ _ _ _ _ _ _ _ _ _ _ Hhop)
        as [[Hbody _] | (_ & Hsh & _)]; [|by rewrite Hsh].
      rewrite Hbody in Hhop. simpl in Hhop. destruct Hhop as (_ & _ & Hblock).
      specialize (Hready Hbody). destruct (kind th) eqn:Hk.
      * destruct Hblock as [_ Hp]. eapply produce_slots; eauto.
        apply (Hval t th Hth Hk). by rewrite Hbody.
      * eapply consume_slots; eauto.
  - apply spurious_view in Hstep as (th & Hth & Hat & _ & Hsh & _ & Hths').
    split; try (by rewrite Hsh).
    + intros u thu'. rewrite Hths'. intros Hu Hr.
      apply lookup_move in Hu as [[-> ->] | [Hne Hu]]; [done|eauto].
    + intros u thu'. rewrite Hths'. intros Hu Hk Hc.
      apply lookup_move in Hu as [[-> ->] | [Hne Hu]]; [|eauto].
      simpl. apply (Hval _ th Hth Hk). by rewrite Hat.
Qed.

Lemma execution_value_inv cfg np nc tr s :
  config_ok cfg -> execution cfg (init cfg np nc) tr s -> value_inv cfg s.
Proof.
  intros Hcfg. induction 1 as [|tr s a evs s' Hex IH Hstep].
  - apply init_value_inv.
  - assert (invariant cfg s) as Hinv by eauto using execution_inv, init_inv.
    by eapply step_value_inv.
Qed.

(** ** Who can run *)

Lemma produce_defined cfg i d s :
  config_ok cfg -> data_inv cfg s -> is_Some (produce cfg i d s).
Proof.
  intros [Hn _ _] []. unfold produce.
  destruct (produced_items s <? items_to_produce cfg); [|eauto].
  assert (in_bounds cfg (in_ s) = true) as ->; [|eauto].
  apply in_bounds_spec. rewrite inv_in0. by apply Z.mod_pos_bound.
Qed.

Lemma consume_defined cfg i d0 s :
  config_ok cfg -> data_inv cfg s -> is_Some (consume cfg i d0 s).
Proof.
  intros [Hn _ _] []. unfold consume.
  destruct (consumed_items s <? items_to_consume cfg); [|eauto].
  assert (0 <= out s < BUFFER_SIZE cfg) as Hb.
  { rewrite inv_out0. by apply Z.mod_pos_bound. }
  rewrite (proj2 (in_bounds_spec cfg (out s)) Hb).
  destruct (lookup_lt_is_Some_2 (buffer s) (Z.to_nat (out s))) as [v ->];
    [lia|eauto].
Qed.

Lemma cond_signal_defined k ths : exists w, is_Some (cond_signal k w ths).
Proof.
  destruct (existsb (waits k) ths) eqn:Hex.
  - apply existsb_exists in Hex as (th & Hin & Hw).
    apply list_elem_of_In, list_elem_of_lookup_1 in Hin as [w Hl].
    exists w. unfold cond_signal. rewrite Hl, Hw. eauto.
  - exists 0%nat. unfold cond_signal. rewrite Hex.
    destruct (ths !! 0%nat) as [th|] eqn:Hl; [|eauto].
    assert (waits k th = false) as ->; [|eauto].
    destruct (waits k th) eqn:Hw; [|done]. rewrite <- Hex. symmetry.
    apply existsb_exists. exists th. split; [|done].
    apply list_elem_of_In. by eapply list_elem_of_lookup_2.
Qed.

(** A worker that is not blocked, has not returned, and is not waiting for
    a mutex that is taken, can run its next statement. *)
Lemma can_run cfg s t th :
  config_ok cfg -> invariant cfg s -> value_inv cfg s ->
  threads s !! t = Some th ->
  at_ th <> Waiting -> at_ th <> Done ->
  (at_ th = Lock \/ at_ th = Woken -> mutex s = None) ->
  exists r w, is_Some (step_thread cfg t r w s).
Proof.
  intros Hcfg [Hdata _] [Hrand _ _] Hth Hnw Hnd Hfree.
  unfold step_thread. rewrite Hth.
  destruct (at_ th) eqn:Hat; try done.
  - exists 0, 0%nat. destruct (kind th); case_match; eauto.
  - exists 0, 0%nat. rewrite (Hrand t th Hth Hat). simpl. eauto.
  - exists 0, 0%nat. rewrite Hfree by auto. destruct (kind th); eauto.
  - exists 0, 0%nat. destruct (kind th); case_match; eauto.
  - exists 0, 0%nat. rewrite Hfree by auto. destruct (kind th); eauto.
  - exists 0, 0%nat. destruct (kind th).
    + destruct (produce_defined cfg (thread_i th) (data th) (shared s))
        as [[evs sh] ->]; eauto.
    + destruct (consume_defined cfg (thread_i th) (data th) (shared s))
        as [[[evs d] sh] ->]; eauto.
  - destruct (kind th).
    + destruct (cond_signal_defined Consumer
                  (<[t := goto Unlock th]> (threads s))) as (w & ths & Hs).
      exists 0, w. rewrite Hs. eauto.
    + destruct (cond_signal_defined Producer
                  (<[t := goto Unlock th]> (threads s))) as (w & ths & Hs).
      exists 0, w. rewrite Hs. eauto.
  - exists 0, 0%nat. destruct (kind th); eauto.
Qed.

(** When no worker is awake, both targets are met and the ring is empty. *)
Lemma asleep_means_done cfg s :
  config_ok cfg -> items_to_produce cfg = items_to_consume cfg ->
  invariant cfg s -> live_inv cfg s ->
  (forall t th, threads s !! t = Some th -> awake th = false) ->
  produced_items (shared s) = items_to_produce cfg
  /\ consumed_items (shared s) = items_to_consume cfg
  /\ current_items_num (shared s) = 0.
Proof.
  intros [Hn _ _] Heq [[] _] [_ Hp Hc] Hasleep.
  assert (forall k, served cfg k s ->
            current_items_num (shared s) = limit cfg k
            \/ finished cfg k (shared s)) as Hquiet.
  { intros k [? | [? | [(t & th & Hth & _ & Haw) | (t & th & Hth & _ & Hat)]]];
      auto.
    - rewrite (Hasleep t th Hth) in Haw. done.
    - pose proof (Hasleep t th Hth) as Haw. unfold awake in Haw.
      rewrite Hat in Haw. done. }
  destruct (Hquiet _ Hp) as [Hp' | Hp'], (Hquiet _ Hc) as [Hc' | Hc'];
    simpl in *; lia.
Qed.

Lemma can_progress cfg np nc tr s :
  config_ok cfg -> items_to_produce cfg = items_to_consume cfg ->
  (0 < np)%nat -> (0 < nc)%nat ->
  execution cfg (init cfg np nc) tr s ->
  produced_items (shared s) < items_to_produce cfg
  \/ consumed_items (shared s) < items_to_consume cfg ->
  exists t r w, is_Some (step cfg (Run t r w) s).
Proof.
  intros Hcfg Heq Hnp Hnc Hex Hleft.
  assert (invariant cfg s) as Hinv by eauto using execution_inv, init_inv.
  pose proof (execution_value_inv _ _ _ _ _ Hcfg Hex) as Hval.
  pose proof (execution_live_inv _ _ _ _ _ Hcfg Hnp Hnc Hex) as Hlive.
  destruct (mutex s) as [t0|] eqn:Hm.
  - (* the owner of the mutex can run *)
    destruct (live_owned _ _ Hlive t0 Hm) as (th0 & Hth0 & Hh).
    exists t0. apply (can_run cfg s t0 th0); auto.
    + by destruct (at_ th0).
    + by destruct (at_ th0).
    + intros [E | E]; rewrite E in Hh; done.
  - destruct (existsb awake (threads s)) eqn:Haw.
    + (* an awake worker can run: nobody holds the mutex *)
      apply existsb_exists in Haw as (th & Hin & Haw).
      apply list_elem_of_In, list_elem_of_lookup_1 in Hin as [t Hth].
      apply awake_spec in Haw as [Hnw Hnd].
      exists t. apply (can_run cfg s t th); auto.
    + (* nobody is awake: the targets are met *)
      destruct (asleep_means_done cfg s Hcfg Heq Hinv Hlive) as (? & ? & _);
        [|lia].
      intros t th Hth. destruct (awake th) eqn:Hawake; [|done].
      rewrite <- Haw. symmetry. apply existsb_exists. exists th.
      split; [|done]. apply list_elem_of_In. by eapply list_elem_of_lookup_2.
Qed.

(** ** What the workers print *)

Lemma init_ident_ok cfg np nc t th :
  threads (init cfg np nc) !! t = Some th -> ident_ok np nc (ident th).
Proof.
  simpl. intros Hl.
  apply lookup_app_Some in Hl as [Hl | [_ Hl]];
    apply list_lookup_fmap_Some_1 in Hl as (x & -> & Hx);
    apply lookup_seq in Hx as [-> Hlt]; unfold ident_ok; simpl; lia.
Qed.

Lemma execution_ident_ok cfg np nc tr s t th :
  execution cfg (init cfg np nc) tr s -> threads s !! t = Some th ->
  ident_ok np nc (ident th).
Proof.
  intros Hex Hth.
  assert ((ident <$> threads s) !! t = Some (ident th)) as Hl
    by (by rewrite list_lookup_fmap, Hth).
  rewrite (execution_ident _ _ _ _ Hex) in Hl.
  apply list_lookup_fmap_Some_1 in Hl as (th0 & -> & Hth0).
  by eapply init_ident_ok.
Qed.

Lemma step_events_ok cfg np nc a s evs s' :
  config_ok cfg -> invariant cfg s -> value_inv cfg s ->
  (forall t th, threads s !! t = Some th -> ident_ok np nc (ident th)) ->
  step cfg a s = Some (evs, s') -> Forall (event_ok cfg np nc) evs.
Proof.
  intros Hcfg Hinv [_ Hval Hslots] Hid Hstep.
  pose proof Hinv as [Hdata Hths]. pose proof Hdata as [].
  pose proof Hcfg as [Hn _ _].
  assert (forall b : list Z, length b = length (buffer (shared s)) ->
            Z.of_nat (length b) = BUFFER_SIZE cfg) as Hlen.
  { intros b ->. rewrite inv_length0. lia. }
  destruct (step_step_kind _ _ _ _ _ Hstep)
    as [-> _ | t r w th _ Hth Hat Hk Hp | t r w th d _ Hth Hat Hk Hc];
    [done|..];
    destruct (Hths _ _ Hth) as (_ & Hready & _); specialize (Hready Hat);
    pose proof (Hid _ _ Hth) as Hident; unfold ident_ok in Hident;
    simpl in Hident; rewrite Hk in Hready, Hident.
  - apply produce_events in Hp as [(_ & -> & _) | (_ & Hb & -> & Hbuf)]; [done|].
    repeat constructor; simpl; try lia.
    + apply (Hval t th Hth Hk). by rewrite Hat.
    + apply (Hval t th Hth Hk). by rewrite Hat.
    + apply Hlen. rewrite Hbuf. apply length_insert.
  - pose proof Hc as Hc'.
    apply consume_events in Hc as [(_ & -> & _) | (_ & Hb & Hv & -> & Hbuf)];
      [done|].
    assert (item_value d) as Hd.
    { eapply consume_reads_item; eauto. left. }
    repeat constructor; simpl; try lia; try apply Hd.
    apply Hlen. rewrite Hbuf. apply length_insert.
Qed.

Lemma execution_events_ok cfg np nc tr s :
  config_ok cfg -> execution cfg (init cfg np nc) tr s ->
  Forall (event_ok cfg np nc) tr.
Proof.
  intros Hcfg. induction 1 as [|tr s a evs s' Hex IH Hstep]; [done|].
  apply Forall_app. split; [done|].
  assert (invariant cfg s) as Hinv by eauto using execution_inv, init_inv.
  pose proof (execution_value_inv _ _ _ _ _ Hcfg Hex) as Hval.
  apply (step_events_ok cfg np nc a s evs s'); try done.
  intros t th Hth. by eapply execution_ident_ok.
Qed.

(** ** Start-up: the loops of [main] *)






Lemma then_outcome p q o :
  (p ;> q).2 = o -> (p.2 = o /\ o <> Next) \/ (p.2 = Next /\ q.2 = o).
Proof. destruct p as [evs []]; simpl; intros <-; auto; left; done. Qed.

Lemma then_events p q e :
  e ∈ (p ;> q).1 -> e ∈ p.1 \/ e ∈ q.1.
Proof.
  destruct p as [evs []]; simpl; auto. intros H. by apply elem_of_app in H.
Qed.

Lemma create_workers_events env k ids e :
  e ∈ (create_workers env k ids).1 ->
  (exists i, e = Started k i) \/ (exists err, e = Err_create err).
Proof.
  induction ids as [|i ids IH]; simpl; [by intros H%elem_of_nil|].
  destruct (create env k i =? 0); simpl.
  - destruct (create_workers env k ids) as [evs o]. simpl in *.
    intros [-> | H]%elem_of_cons; eauto.
  - intros ->%list_elem_of_singleton. eauto.
Qed.

Lemma join_workers_events env k ids e :
  e ∈ (join_workers env k ids).1 -> exists err, e = Err_join err.
Proof.
  induction ids as [|i ids IH]; simpl; [by intros H%elem_of_nil|].
  destruct (join env k i) as [err|]; simpl; [|by intros H%elem_of_nil].
  destruct (err =? 0); simpl; [done|].
  intros ->%list_elem_of_singleton. eauto.
Qed.

Lemma init_shared_sync_view env :
  (init_shared_sync env).2 = Next
  /\ forall e, e ∈ (init_shared_sync env).1 ->
       (exists err, e = Err_mutex_init err) \/ (exists err, e = Err_cond_init err).
Proof.
  unfold init_shared_sync. repeat case_match; simpl; (split; [done|]);
    intros e He; try (by apply elem_of_nil in He);
    apply list_elem_of_singleton in He as ->; eauto.
Qed.



Lemma execution_owned cfg np nc tr s :
  execution cfg (init cfg np nc) tr s -> owned s.
Proof.
  induction 1 as [|tr s a evs s' Hex IH Hstep]; [by intros t Hm|].
  by eapply step_owned.
Qed.

(** X1. Mutual exclusion: in every reachable state a worker is between its
    lock and its unlock (or wait) exactly when it is the owner of the
    mutex; so two workers are never there together. *)
Theorem X1_mutual_exclusion np nc s t th :
  reachable source_config np nc s -> threads s !! t = Some th ->
  (holds_mutex (at_ th) = true <-> mutex s = Some t)
  /\ forall t' th', threads s !! t' = Some th' ->
       holds_mutex (at_ th) = true -> holds_mutex (at_ th') = true -> t' = t.
Proof.
  intros [tr Hex] Hth.
  destruct (execution_inv _ _ _ _ source_config_ok
              (init_inv _ np nc source_config_ok) Hex) as [_ Hths].
  pose proof (execution_owned _ _ _ _ _ Hex) as Hown.
  split; [split|].
  - apply (Hths t th Hth).
  - intros Hm. destruct (Hown t Hm) as (th0 & Hth0 & Hh). congruence.
  - intros t' th' Hth' Hh Hh'.
    pose proof (proj1 (Hths t th Hth) Hh).
    pose proof (proj1 (Hths t' th' Hth') Hh'). congruence.
Qed.

Lemma X1_mutual_exclusion_witness :
  reachable source_config 1 1 full_but_one
  /\ threads full_but_one !! 0%nat
     = Some {| kind := Producer; thread_i := 1; at_ := Body; data := 7 |}
  /\ mutex full_but_one = Some 0%nat.
Proof.
  assert (reachable source_config 1 1 full_but_one) as Hreach
    by apply outcome_reachable.
  assert (threads full_but_one !! 0%nat
          = Some {| kind := Producer; thread_i := 1; at_ := Body; data := 7 |})
    as Hth by (by vm_compute).
  split; [done|]. split; [done|].
  exact (proj1 (proj1 (X1_mutual_exclusion 1 1 full_but_one 0 _ Hreach Hth))
           eq_refl).
Defined.

(** X2. Slots and values: in every reachable state a slot inside the
    occupied region holds an item value (between 1 and 99, what
    [rand() % 99 + 1] gives) and a slot outside holds 0; so a slot holds 0
    exactly when it is free. *)
Theorem X2_slot_values np nc s i :
  reachable source_config np nc s -> 0 <= i < 10 ->
  exists v, buffer (shared s) !! Z.to_nat i = Some v
    /\ (if occupied source_config (shared s) i then 1 <= v <= 99 else v = 0).
Proof.
  intros [tr Hex] Hi.
  destruct (execution_inv _ _ _ _ source_config_ok
              (init_inv _ np nc source_config_ok) Hex) as [[] _].
  destruct (execution_value_inv _ _ _ _ _ source_config_ok Hex) as [_ _ Hslots].
  destruct (occupied source_config (shared s) i) eqn:Hocc.
  - by apply Hslots.
  - exists 0. split; [|done]. by apply inv_sentinel0.
Qed.

Lemma X2_slot_values_witness :
  reachable source_config 1 1 wrapped_ring /\ 0 <= 3 < 10
  /\ exists v, buffer (shared wrapped_ring) !! Z.to_nat 3 = Some v
       /\ (if occupied source_config (shared wrapped_ring) 3
           then 1 <= v <= 99 else v = 0).
Proof.
  assert (reachable source_config 1 1 wrapped_ring) as Hreach
    by apply outcome_reachable.
  assert (0 <= 3 < 10) as Hi by lia.
  split; [done|]. split; [done|].
  exact (X2_slot_values 1 1 wrapped_ring 3 Hreach Hi).
Defined.

(** X3. First in, first out, for any number of workers: along every
    execution the list of (slot, value) pairs read is a prefix of the list
    of pairs written, there is one write per item produced and one read
    per item consumed, and the k-th write goes to slot k mod 10. *)
Theorem X3_fifo np nc tr s :
  execution source_config (init source_config np nc) tr s ->
  gets tr `prefix_of` puts tr
  /\ Z.of_nat (length (puts tr)) = produced_items (shared s)
  /\ Z.of_nat (length (gets tr)) = consumed_items (shared s)
  /\ forall k p, puts tr !! k = Some p -> p.1 = Z.of_nat k mod 10.
Proof.
  intros Hex.
  destruct (execution_trace_inv _ _ _ _ _ source_config_ok Hex) as [].
  auto.
Qed.

Lemma X3_fifo_witness :
  let o := outcome_of source_config 1 1
             (fill 10 ++ consumer_turn 1 0 ++ consumer_turn 1 0 ++ fill 2) in
  execution source_config (init source_config 1 1) o.1 o.2
  /\ gets o.1 `prefix_of` puts o.1
  /\ Z.of_nat (length (puts o.1)) = produced_items (shared o.2)
  /\ Z.of_nat (length (gets o.1)) = consumed_items (shared o.2).
Proof.
  intros o.
  assert (execution source_config (init source_config 1 1) o.1 o.2) as Hex
    by apply outcome_execution.
  split; [done|].
  destruct (X3_fifo 1 1 o.1 o.2 Hex) as (H1 & H2 & H3 & _). auto.
Defined.

(** X4. No item is lost: along every execution, an item that was written
    and has not been read yet is still in the slot it was written to. *)
Theorem X4_unread_items_stay np nc tr s k p :
  execution source_config (init source_config np nc) tr s ->
  puts tr !! k = Some p -> consumed_items (shared s) <= Z.of_nat k ->
  buffer (shared s) !! Z.to_nat (Z.of_nat k mod 10) = Some p.2.
Proof.
  intros Hex Hk Hge.
  destruct (execution_trace_inv _ _ _ _ _ source_config_ok Hex) as [].
  by apply tr_live0.
Qed.

Lemma X4_unread_items_stay_witness :
  let o := outcome_of source_config 1 1
             (fill 10 ++ consumer_turn 1 0 ++ consumer_turn 1 0 ++ fill 2) in
  execution source_config (init source_config 1 1) o.1 o.2
  /\ puts o.1 !! 11%nat = Some (1, 2)
  /\ consumed_items (shared o.2) <= Z.of_nat 11
  /\ buffer (shared o.2) !! Z.to_nat (Z.of_nat 11 mod 10) = Some 2.
Proof.
  intros o.
  assert (execution source_config (init source_config 1 1) o.1 o.2) as Hex
    by apply outcome_execution.
  assert (puts o.1 !! 11%nat = Some (1, 2)) as Hk by (by vm_compute).
  assert (consumed_items (shared o.2) <= Z.of_nat 11) as Hge
    by (by vm_compute).
  split; [done|]. split; [done|]. split; [done|].
  exact (X4_unread_items_stay 1 1 o.1 o.2 11 (1, 2) Hex Hk Hge).
Defined.

(** X5. No deadlock before the targets are met: with at least one producer
    and one consumer, in every reachable state in which fewer than 100
    items have been produced or fewer than 100 consumed, some worker can
    run its next statement. *)
Theorem X5_progress_before_target np nc s :
  (0 < np)%nat -> (0 < nc)%nat -> reachable source_config np nc s ->
  produced_items (shared s) < 100 \/ consumed_items (shared s) < 100 ->
  exists t r w, is_Some (step source_config (Run t r w) s).
Proof.
  intros Hnp Hnc [tr Hex] Hleft.
  by apply (can_progress source_config np nc tr s source_config_ok eq_refl).
Qed.

Lemma X5_progress_before_target_witness :
  reachable source_config 1 1 full_ring
  /\ (produced_items (shared full_ring) < 100
      \/ consumed_items (shared full_ring) < 100)
  /\ exists t r w, is_Some (step source_config (Run t r w) full_ring).
Proof.
  assert (reachable source_config 1 1 full_ring) as Hreach
    by apply outcome_reachable.
  assert (produced_items (shared full_ring) < 100
          \/ consumed_items (shared full_ring) < 100) as Hleft
    by (left; by vm_compute).
  split; [done|]. split; [done|].
  exact (X5_progress_before_target 1 1 full_ring
           (Nat.lt_0_succ 0) (Nat.lt_0_succ 0) Hreach Hleft).
Defined.

(** X6. All asleep means all done: with at least one producer and one
    consumer, a reachable state in which every worker is blocked or has
    returned has 100 items produced, 100 consumed, no live item, and the
    neutral value in every slot. *)
Theorem X6_asleep_means_done np nc s :
  (0 < np)%nat -> (0 < nc)%nat -> reachable source_config np nc s ->
  (forall t th, threads s !! t = Some th -> awake th = false) ->
  produced_items (shared s) = 100
  /\ consumed_items (shared s) = 100
  /\ current_items_num (shared s) = 0
  /\ buffer (shared s) = replicate 10 0.
Proof.
  intros Hnp Hnc [tr Hex] Hasleep.
  assert (invariant source_config s) as Hinv
    by eauto using execution_inv, init_inv, source_config_ok.
  pose proof (execution_live_inv _ _ _ _ _ source_config_ok Hnp Hnc Hex)
    as Hlive.
  destruct (asleep_means_done source_config s source_config_ok eq_refl
              Hinv Hlive Hasleep) as (Hp & Hc & Hcount).
  repeat split; try done.
  destruct Hinv as [[] _]. apply list_eq_same_length with 10%nat;
    [apply length_replicate | done |].
  intros i x y Hi Hx Hy. apply lookup_replicate in Hy as [-> _].
  assert (buffer (shared s) !! Z.to_nat (Z.of_nat i) = Some 0) as H0.
  { apply inv_sentinel0; [simpl; lia|]. unfold occupied. apply Z.ltb_ge.
    rewrite Hcount. apply Z.mod_pos_bound. done. }
  rewrite Nat2Z.id in H0. congruence.
Qed.

Lemma X6_asleep_means_done_witness :
  let s := (outcome_of source_config 1 2 stranding_schedule).2 in
  reachable source_config 1 2 s
  /\ (forall t th, threads s !! t = Some th -> awake th = false)
  /\ produced_items (shared s) = 100
  /\ consumed_items (shared s) = 100.
Proof.
  intros s.
  assert (reachable source_config 1 2 s) as Hreach by apply outcome_reachable.
  assert (forall t th, threads s !! t = Some th -> awake th = false) as Hasleep.
  { intros t th. assert (forallb (fun th => negb (awake th)) (threads s) = true)
      as Hall by (by vm_compute).
    intros Hth. rewrite forallb_forall in Hall.
    apply negb_true_iff, Hall, list_elem_of_In. by eapply list_elem_of_lookup_2. }
  split; [done|]. split; [done|].
  destruct (X6_asleep_means_done 1 2 s (Nat.lt_0_succ 0) (Nat.lt_0_succ 1)
              Hreach Hasleep) as (Hp & Hc & _).
  by split.
Defined.

(** X7. The output is well formed: every line printed along an execution
    names a worker that exists (ordinal between 1 and the number of workers
    of its role) and a slot between 0 and 9, and shows an item value
    between 1 and 99, so a consumer never prints the neutral value of an
    empty slot; every dump of the buffer has 10 entries. *)
Theorem X7_output_well_formed np nc tr s e :
  execution source_config (init source_config np nc) tr s -> e ∈ tr ->
  match e with
  | Print_P i idx d =>
      1 <= i <= Z.of_nat np /\ 0 <= idx < 10 /\ 1 <= d <= 99
  | Print_C i idx d =>
      1 <= i <= Z.of_nat nc /\ 0 <= idx < 10 /\ 1 <= d <= 99
  | Print_buffer b => length b = 10%nat
  end.
Proof.
  intros Hex Hin.
  pose proof (execution_events_ok _ _ _ _ _ source_config_ok Hex) as Hall.
  rewrite Forall_forall in Hall. specialize (Hall e Hin).
  destruct e; simpl in *; [done..|lia].
Qed.

Lemma X7_output_well_formed_witness :
  let o' := outcome_of source_config 2 1 (producer_turn 1 98 0) in
  execution source_config (init source_config 2 1) o'.1 o'.2
  /\ Print_P 2 0 99 ∈ o'.1
  /\ 1 <= 2 <= Z.of_nat 2 /\ 0 <= 0 < 10 /\ 1 <= 99 <= 99.
Proof.
  intros o'.
  assert (execution source_config (init source_config 2 1) o'.1 o'.2) as Hex
    by apply outcome_execution.
  assert (Print_P 2 0 99 ∈ o'.1) as Hin by (vm_compute; left).
  split; [done|]. split; [done|].
  exact (X7_output_well_formed 2 1 o'.1 o'.2 (Print_P 2 0 99) Hex Hin).
Defined.

(** X8. No access outside the array: in every reachable state both cursors
    are between 0 and 9 and the buffer has 10 slots, so the guarded block
    of either role, run from there, is defined. *)
Theorem X8_array_in_bounds np nc s :
  reachable source_config np nc s ->
  0 <= in_ (shared s) < 10 /\ 0 <= out (shared s) < 10
  /\ length (buffer (shared s)) = 10%nat
  /\ forall i d, is_Some (produce source_config i d (shared s))
                 /\ is_Some (consume source_config i d (shared s)).
Proof.
  intros Hreach.
  destruct (reachable_inv _ _ _ _ source_config_ok Hreach) as [Hdata _].
  pose proof Hdata as [].
  pose proof (Z.mod_pos_bound (produced_items (shared s)) 10).
  pose proof (Z.mod_pos_bound (consumed_items (shared s)) 10).
  simpl in *. repeat split; try lia; try done.
  - by apply produce_defined; [apply source_config_ok|].
  - by apply consume_defined; [apply source_config_ok|].
Qed.

Lemma X8_array_in_bounds_witness :
  reachable source_config 1 1 wrapped_ring
  /\ 0 <= in_ (shared wrapped_ring) < 10
  /\ 0 <= out (shared wrapped_ring) < 10.
Proof.
  assert (reachable source_config 1 1 wrapped_ring) as Hreach
    by apply outcome_reachable.
  split; [done|].
  destruct (X8_array_in_bounds 1 1 wrapped_ring Hreach) as (Hi & Ho & _).
  by split.
Defined.

(** X9. Wrong number of arguments: unless [argv] has exactly three entries
    (the program name and two arguments), [main] prints the usage line
    with [argv[0]] and exits with code 1; no pthread call is made and no
    worker is started. *)
Theorem X9_usage_error argv env :
  length argv <> 3%nat ->
  main argv env = ([Err_usage (default EmptyString (head argv))], Exit 1).
Proof. apply main_usage. Qed.

Lemma X9_usage_error_witness :
  length ["prog"; "4"]%string <> 3%nat
  /\ main ["prog"; "4"]%string all_fine = ([Err_usage "prog"], Exit 1).
Proof.
  assert (length ["prog"; "4"]%string <> 3%nat) as Hlen by (simpl; lia).
  split; [done|]. exact (X9_usage_error ["prog"; "4"]%string all_fine Hlen).
Defined.

Lemma main_goes_on prog arg1 arg2 env :
  invalid_numbers arg1 arg2 = false ->
  Err_invalid ∉ (main [prog; arg1; arg2] env).1.
Proof.
  intros Hok Hin. simpl in Hin. rewrite Hok in Hin.
  repeat (apply then_events in Hin as [Hin | Hin]).
  - apply init_shared_sync_view in Hin as [[? ?] | [? ?]]; done.
  - apply create_workers_events in Hin as [[? ?] | [? ?]]; done.
  - apply create_workers_events in Hin as [[? ?] | [? ?]]; done.
  - apply join_workers_events in Hin as [? ?]; done.
  - apply join_workers_events in Hin as [? ?]; done.
  - by apply elem_of_nil in Hin.
Qed.

(** X10. Argument check inside the range of [int]: when the numbers written
    in the two arguments fit [int], [main] rejects them with the
    "Invalid number" line and exit code 1, before any pthread call, exactly
    when one of them is not, as a whole, a positive integer; otherwise it
    never prints that line. *)
Theorem X10_argument_check prog arg1 arg2 env :
  fits_int arg1 -> fits_int arg2 ->
  if positive_integer arg1 && positive_integer arg2
  then Err_invalid ∉ (main [prog; arg1; arg2] env).1
  else main [prog; arg1; arg2] env = ([Err_invalid], Exit 1).
Proof.
  intros H1 H2.
  pose proof (invalid_numbers_spec arg1 arg2) as Hspec.
  rewrite (number_ok_positive_integer arg1 H1),
    (number_ok_positive_integer arg2 H2) in Hspec.
  destruct (positive_integer arg1 && positive_integer arg2); simpl in Hspec.
  - by apply main_goes_on.
  - by apply main_invalid.
Qed.

Lemma X10_argument_check_witness :
  fits_int " +7" /\ fits_int "3x"
  /\ main ["prog"; " +7"; "3x"]%string all_fine = ([Err_invalid], Exit 1).
Proof.
  assert (fits_int " +7") as H1
    by (intros v Hv; vm_compute in Hv; injection Hv as <-; lia).
  assert (fits_int "3x") as H2
    by (intros v Hv; vm_compute in Hv; discriminate Hv).
  split; [done|]. split; [done|].
  exact (X10_argument_check "prog" " +7" "3x" all_fine H1 H2).
Defined.















Lemma goto_same th p : at_ th = p -> goto p th = th.
Proof. intros <-. by destruct th. Qed.

(** X15. Spurious wake-ups are absorbed by the re-check loop: when a worker
    blocked in [pthread_cond_wait] is woken without a signal while its
    wait condition still holds (the ring is full for a producer; empty,
    with the target not met, for a consumer) and the mutex is free, its
    next two statements take the mutex, test again and block again, and
    the whole system is back in the state it was in, with nothing
    printed. *)
Theorem X15_spurious_wakeup_absorbed s t th r w :
  threads s !! t = Some th -> at_ th = Waiting -> mutex s = None ->
  match kind th with
  | Producer => current_items_num (shared s) = 10
  | Consumer => current_items_num (shared s) = 0
                /\ consumed_items (shared s) <> 100
  end ->
  run source_config [Spurious t; Run t r w; Run t r w] s = Some ([], s).
Proof.
  intros Hth Hat Hm Hcond.
  assert (t < length (threads s))%nat as Hlt by (by eapply lookup_lt_Some).
  destruct s as [sh m ths]. simpl in *. subst m.
  unfold step_thread. simpl. rewrite Hth, Hat. simpl.
  rewrite list_lookup_insert_eq by done. simpl.
  rewrite list_lookup_insert_eq by (by rewrite length_insert). simpl.
  assert (<[t := goto Waiting (goto Test (goto Woken th))]>
            (<[t := goto Test (goto Woken th)]> (<[t := goto Woken th]> ths))
          = ths) as Hback.
  { rewrite !list_insert_insert_eq. apply list_insert_id.
    rewrite Hth. f_equal. symmetry. by destruct th; simpl in *; subst. }
  destruct (kind th).
  - rewrite Hcond. simpl. by rewrite Hback.
  - destruct Hcond as [-> Hne]. simpl.
    rewrite (proj2 (Z.eqb_neq _ _) Hne). simpl. by rewrite Hback.
Qed.

Lemma X15_spurious_wakeup_absorbed_witness :
  threads full_ring !! 0%nat
  = Some {| kind := Producer; thread_i := 1; at_ := Waiting; data := 7 |}
  /\ mutex full_ring = None
  /\ current_items_num (shared full_ring) = 10
  /\ run source_config [Spurious 0; Run 0 5 0; Run 0 5 0] full_ring
     = Some ([], full_ring).
Proof.
  assert (threads full_ring !! 0%nat
          = Some {| kind := Producer; thread_i := 1; at_ := Waiting; data := 7 |})
    as Hth by (by vm_compute).
  assert (mutex full_ring = None) as Hm by (by vm_compute).
  assert (current_items_num (shared full_ring) = 10) as Hc by (by vm_compute).
  split; [done|]. split; [done|]. split; [done|].
  exact (X15_spurious_wakeup_absorbed full_ring 0 _ 5 0 Hth eq_refl Hm Hc).
Defined.
